(** * The patch engine of gambit-opentui: path validation, splitting and
      application of unified diffs.

    The development embeds [sanitizePatchTargets], [normalizePatchPath],
    [splitUnifiedDiffByFile] and [applyUnifiedDiff] as executable
    functions and proves the properties their specification states.

    JavaScript strings are sequences of UTF-16 code units; a string is a
    [list N] here, one number per code unit, so that [slice], [startsWith],
    [split] and [trim] act on the same positions as in the source. *)

From Stdlib Require Import ZArith NArith List String Ascii Bool Lia.
From stdpp Require Import base option list gmap sets.
Import ListNotations.

Local Open Scope N_scope.

(** ** Strings *)

Module JS.

Abbreviation jsstring := (list N).

(** A literal of the source, written with a Rocq string. *)
Definition lit (s : String.string) : jsstring :=
  List.map N_of_ascii (list_ascii_of_string s).
Global Arguments lit : simpl never.

Definition LF : N := 10.
Definition CR : N := 13.
Definition TAB : N := 9.
Definition SP : N := 32.
Definition QUOTE : N := 34.

(** [s.startsWith(p)] *)
Fixpoint startsWith (p s : jsstring) : bool :=
  match p, s with
  | [], _ => true
  | _ :: _, [] => false
  | a :: p', b :: s' => (a =? b) && startsWith p' s'
  end.

(** [s.slice(n)] for a non-negative literal [n]. *)
Definition slice (n : nat) (s : jsstring) : jsstring := drop n s.

(** [s.split(sep)] for a separator of one code unit: the pieces between
    the separators, never an empty array. *)
Fixpoint splitAux (sep : N) (s : jsstring) : jsstring * list jsstring :=
  match s with
  | [] => ([], [])
  | c :: s' =>
      let '(piece, pieces) := splitAux sep s' in
      if c =? sep then ([], piece :: pieces) else (c :: piece, pieces)
  end.

Definition split (sep : N) (s : jsstring) : list jsstring :=
  let '(piece, pieces) := splitAux sep s in piece :: pieces.

(** [lines.join(sep)] *)
Fixpoint join (sep : N) (ls : list jsstring) : jsstring :=
  match ls with
  | [] => []
  | [l] => l
  | l :: ls' => l ++ sep :: join sep ls'
  end.

(** [s.replace(/\r/g, "")] *)
Definition removeCR (s : jsstring) : jsstring :=
  filter (λ c, c ≠ CR) s.

(** [s.replace(/\\/g, "/")] *)
Definition backslashToSlash (s : jsstring) : jsstring :=
  List.map (λ c, if c =? 92 then 47 else c) s.

(** [s.replace(/^\.\//, "")] *)
Definition stripDotSlash (s : jsstring) : jsstring :=
  if startsWith (lit "./") s then slice 2 s else s.

(** The code units [String.prototype.trim] removes: ECMAScript's
    WhiteSpace and LineTerminator. *)
Definition isWhiteSpace (c : N) : bool :=
  (c =? 9) || (c =? 10) || (c =? 11) || (c =? 12) || (c =? 13) ||
  (c =? 32) || (c =? 160) || (c =? 5760) ||
  ((8192 <=? c) && (c <=? 8202)) ||
  (c =? 8232) || (c =? 8233) || (c =? 8239) || (c =? 8287) ||
  (c =? 12288) || (c =? 65279).

Fixpoint trimStart (s : jsstring) : jsstring :=
  match s with
  | [] => []
  | c :: s' => if isWhiteSpace c then trimStart s' else s
  end.

Definition trimEnd (s : jsstring) : jsstring :=
  reverse (trimStart (reverse s)).

(** [s.trim()] *)
Definition trim (s : jsstring) : jsstring := trimEnd (trimStart s).

(** [!s] for a string: only the empty string is falsy. *)
Definition isEmpty (s : jsstring) : bool :=
  match s with [] => true | _ => false end.

End JS.

Import JS.

(** ** Errors

    Every [throw new Error(...)] of the module is one constructor; the
    message the source builds is [errorMessage]. *)

Inductive patchError : Type :=
  | UnexpectedPath (candidate : jsstring)
  | InvalidHunkHeader (line : jsstring)
  | HunkExceedsOriginal
  | ContextMismatch (expected actual : jsstring)
  | DeletionMismatch (payload actual : jsstring)
  | UnsupportedPatchLine (hunkLine : jsstring).

Definition errorMessage (e : patchError) : jsstring :=
  match e with
  | UnexpectedPath candidate =>
      lit "Patch references unexpected file path: " ++ candidate
  | InvalidHunkHeader line => lit "Invalid hunk header: " ++ line
  | HunkExceedsOriginal => lit "Patch hunk exceeds original file length."
  | ContextMismatch expected actual =>
      lit "Context mismatch while applying patch." ++ [LF] ++
      lit "Expected: " ++ [QUOTE] ++ expected ++ [QUOTE; LF] ++
      lit "Actual: " ++ [QUOTE] ++ actual ++ [QUOTE]
  | DeletionMismatch payload actual =>
      lit "Deletion mismatch while applying patch." ++ [LF] ++
      lit "Expected to delete: " ++ [QUOTE] ++ payload ++ [QUOTE; LF] ++
      lit "Found: " ++ [QUOTE] ++ actual ++ [QUOTE]
  | UnsupportedPatchLine hunkLine => lit "Unsupported patch line: " ++ hunkLine
  end.

(** A call either returns or throws. *)
Inductive result (A : Type) : Type :=
  | Ok (a : A)
  | Throw (e : patchError).
Arguments Ok {A} a.
Arguments Throw {A} e.

(** ** normalizePatchPath *)

Definition devNull : jsstring := lit "/dev/null".

Definition normalizePatchPath (rawPath : option jsstring) : option jsstring :=
  match rawPath with
  | None => None
  | Some raw =>
      if isEmpty raw then None
      else
        let trimmed := trim (stripDotSlash (backslashToSlash raw)) in
        if isEmpty trimmed || bool_decide (trimmed = devNull) then None
        else if startsWith (lit "a/") trimmed || startsWith (lit "b/") trimmed
             then Some (slice 2 trimmed)
             else Some trimmed
  end.

(** ** sanitizePatchTargets *)

(** The parameter [targetRelativePaths : string | string[]]. *)
Inductive targetPaths : Type :=
  | OnePath (p : jsstring)
  | ManyPaths (ps : list jsstring).

Definition targetList (t : targetPaths) : list jsstring :=
  match t with
  | OnePath p => [p]
  | ManyPaths ps => ps
  end.

(** The values of [normalizedTargets], in insertion order. The source
    keeps them in a [Set]; a repeated value only repeats the same three
    insertions into [accepted]. *)
Definition normalizedTargets (t : targetPaths) : list jsstring :=
  List.map (λ value, default value (normalizePatchPath (Some value)))
           (List.filter (λ value, negb (isEmpty value)) (targetList t)).

(** One iteration of [for (const target of normalizedTargets)]. *)
Definition addTarget (accepted : gset jsstring) (target : jsstring)
  : gset jsstring :=
  match normalizePatchPath (Some target) with
  | Some restful =>
      if isEmpty restful then accepted
      else {[ lit "b/" ++ restful ]} ∪
           ({[ lit "a/" ++ restful ]} ∪ ({[ restful ]} ∪ accepted))
  | None => accepted
  end.

Definition acceptedSet (t : targetPaths) : gset jsstring :=
  fold_left addTarget (normalizedTargets t) ∅.

(** [line.slice(4).split("\t")[0]?.trim() ?? dflt] *)
Definition headerPath (line : jsstring) : option jsstring :=
  trim <$> head (split TAB (slice 4 line)).

Definition isPathHeader (line : jsstring) : bool :=
  startsWith (lit "--- ") line || startsWith (lit "+++ ") line.

(** The body of [for (const line of lines)]: [None] when the line passes
    (falls through or [continue]s), the thrown error otherwise. *)
Definition checkLine (accepted : gset jsstring) (line : jsstring)
  : option patchError :=
  if isPathHeader line then
    let candidate := default [] (headerPath line) in
    if isEmpty candidate || bool_decide (candidate = devNull) then None
    else
      match normalizePatchPath (Some candidate) with
      | None => Some (UnexpectedPath candidate)
      | Some normalizedCandidate =>
          if isEmpty normalizedCandidate
             || (negb (bool_decide (normalizedCandidate ∈ accepted))
                 && negb (bool_decide (candidate ∈ accepted)))
          then Some (UnexpectedPath candidate)
          else None
      end
  else None.

Fixpoint checkLines (accepted : gset jsstring) (lines : list jsstring)
  : result unit :=
  match lines with
  | [] => Ok tt
  | line :: rest =>
      match checkLine accepted line with
      | Some e => Throw e
      | None => checkLines accepted rest
      end
  end.

Definition sanitizePatchTargets (patchText : jsstring)
    (targetRelativePaths : targetPaths) : result unit :=
  checkLines (acceptedSet targetRelativePaths) (split LF patchText).

(** ** splitUnifiedDiffByFile *)

Record ParsedFilePatch : Type := {
  patchText : jsstring;
  oldPath : option jsstring;
  newPath : option jsstring;
  rawOldPath : option jsstring;
  rawNewPath : option jsstring
}.

(** The variables the closure [pushPatch] and the loop share. *)
Record splitState : Type := {
  patches : list ParsedFilePatch;
  buffer : list jsstring;
  rawOld : option jsstring;
  rawNew : option jsstring;
  recording : bool
}.

Definition pushPatch (st : splitState) : splitState :=
  if negb (recording st) then
    {| patches := patches st; buffer := []; rawOld := None; rawNew := None;
       recording := recording st |}
  else
    let text := join LF (buffer st) in
    {| patches := patches st ++
         [ {| patchText := text;
              rawOldPath := rawOld st;
              rawNewPath := rawNew st;
              oldPath := normalizePatchPath (rawOld st);
              newPath := normalizePatchPath (rawNew st) |} ];
       buffer := []; rawOld := None; rawNew := None; recording := false |}.

(** The tail of the loop body, after the line has entered the buffer. *)
Definition recordPaths (line : jsstring) (st : splitState) : splitState :=
  if startsWith (lit "--- ") line then
    {| patches := patches st; buffer := buffer st;
       rawOld := headerPath line; rawNew := rawNew st;
       recording := recording st |}
  else if startsWith (lit "+++ ") line then
    {| patches := patches st; buffer := buffer st;
       rawOld := rawOld st; rawNew := headerPath line;
       recording := recording st |}
  else st.

(** The body of [for (const line of lines)]. *)
Definition splitLine (st : splitState) (line : jsstring) : splitState :=
  if startsWith (lit "diff --git ") line then
    let st' := pushPatch st in
    {| patches := patches st'; buffer := [line];
       rawOld := rawOld st'; rawNew := rawNew st'; recording := true |}
  else if negb (recording st) then
    if startsWith (lit "--- ") line || startsWith (lit "+++ ") line
       || startsWith (lit "@@ ") line
    then recordPaths line
           {| patches := patches st; buffer := [line];
              rawOld := rawOld st; rawNew := rawNew st; recording := true |}
    else st
  else
    recordPaths line
      {| patches := patches st; buffer := buffer st ++ [line];
         rawOld := rawOld st; rawNew := rawNew st;
         recording := recording st |}.

Definition splitStart : splitState :=
  {| patches := []; buffer := []; rawOld := None; rawNew := None;
     recording := false |}.

Definition hasRawPath (p : ParsedFilePatch) : bool :=
  negb (bool_decide (rawOldPath p = None))
  || negb (bool_decide (rawNewPath p = None)).

(** [patches] when the loop and the last [pushPatch()] are done. *)
Definition collectedPatches (patchText : jsstring) : list ParsedFilePatch :=
  let normalized := removeCR patchText in
  let lines := split LF normalized in
  patches (pushPatch (fold_left splitLine lines splitStart)).

Definition splitUnifiedDiffByFile (patchText : jsstring)
  : list ParsedFilePatch :=
  List.filter hasRawPath (collectedPatches patchText).

(** ** applyUnifiedDiff *)

Definition isDigit (c : N) : bool := (48 <=? c) && (c <=? 57).

(** The longest run of decimal digits at the front, and what follows. *)
Fixpoint spanDigits (s : jsstring) : jsstring * jsstring :=
  match s with
  | c :: s' =>
      if isDigit c
      then let '(ds, r) := spanDigits s' in (c :: ds, r)
      else ([], s)
  | [] => ([], [])
  end.

(** [(\d+)]: at least one digit. Whatever follows the group in the
    pattern is not a digit, so the greedy match is the only one. *)
Definition digits1 (s : jsstring) : option (jsstring * jsstring) :=
  let '(ds, r) := spanDigits s in
  if isEmpty ds then None else Some (ds, r).

(** [(?:,(\d+))?]: what is left after the optional count. *)
Definition optCount (s : jsstring) : jsstring :=
  match s with
  | 44 :: s' =>
      match digits1 s' with
      | Some (_, r) => r
      | None => s
      end
  | _ => s
  end.

Definition expect (p s : jsstring) : option jsstring :=
  if startsWith p s then Some (drop (length p) s) else None.

(** [hunkHeaderPattern.exec(line)] for
    [/^@@ -(\d+)(?:,(\d+))? \+(\d+)(?:,(\d+))? @@/]: [match[1]] when the
    line matches, the only group the caller reads. *)
Definition hunkHeaderPattern (line : jsstring) : option jsstring :=
  s1 ← expect (lit "@@ -") line;
  '(g1, s2) ← digits1 s1;
  s3 ← expect (lit " +") (optCount s2);
  '(_, s4) ← digits1 s3;
  _ ← expect (lit " @@") (optCount s4);
  Some g1.

(** [parseInt(digits, 10)] on a string of decimal digits. The source holds
    the value in a double; it is exact below 2^53 and at least 2^53
    otherwise, and it is only ever compared with an array index, so the
    exact integer decides every comparison the same way. *)
Definition parseInt (digits : jsstring) : Z :=
  fold_left (λ acc c, (acc * 10 + (Z.of_N c - 48))%Z) digits 0%Z.

Record applyState : Type := {
  sourceIndex : nat;
  outputLines : list jsstring
}.

(** What one pass through the body of the inner [while] does. *)
Inductive bodyStep : Type :=
  | Continue (st : applyState)
  | Break
  | Raise (e : patchError).

Section Apply.

Variable sourceLines : list jsstring.

(** [while (sourceIndex < startOld) { ... }], by recursion on the source
    lines from the cursor on; [catchUp_unfold] below is the loop as the
    source writes it. *)
Fixpoint catchUpFrom (remaining : list jsstring) (startOld : Z)
    (st : applyState) : result applyState :=
  if (Z.of_nat (sourceIndex st) <? startOld)%Z then
    match remaining with
    | [] => Throw HunkExceedsOriginal
    | originalLine :: remaining' =>
        catchUpFrom remaining' startOld
          {| sourceIndex := S (sourceIndex st);
             outputLines := outputLines st ++ [originalLine] |}
    end
  else Ok st.

Definition catchUp (startOld : Z) (st : applyState) : result applyState :=
  catchUpFrom (drop (sourceIndex st) sourceLines) startOld st.

Definition isHeaderLine (hunkLine : jsstring) : bool :=
  startsWith (lit "@@ ") hunkLine || startsWith (lit "--- ") hunkLine
  || startsWith (lit "+++ ") hunkLine.

(** [sourceLines[sourceIndex] ?? ""] *)
Definition actualLine (st : applyState) : jsstring :=
  default [] (sourceLines !! sourceIndex st).

Definition hunkLineStep (hunkLine : jsstring) (st : applyState) : bodyStep :=
  if isEmpty hunkLine then Continue st
  else if isHeaderLine hunkLine then Break
  else if startsWith (lit "\ No newline") hunkLine then Continue st
  else
    let marker := take 1 hunkLine in
    let payload := slice 1 hunkLine in
    if bool_decide (marker = lit " ") then
      let expected := payload in
      let actual := actualLine st in
      if negb (bool_decide (expected = actual))
      then Raise (ContextMismatch expected actual)
      else Continue {| sourceIndex := S (sourceIndex st);
                       outputLines := outputLines st ++ [actual] |}
    else if bool_decide (marker = lit "-") then
      let actual := actualLine st in
      if negb (bool_decide (payload = actual))
      then Raise (DeletionMismatch payload actual)
      else Continue {| sourceIndex := S (sourceIndex st);
                       outputLines := outputLines st |}
    else if bool_decide (marker = lit "+") then
      Continue {| sourceIndex := sourceIndex st;
                  outputLines := outputLines st ++ [payload] |}
    else if isEmpty (trim marker) then
      Continue {| sourceIndex := sourceIndex st;
                  outputLines := outputLines st ++ [ [] ] |}
    else Raise (UnsupportedPatchLine hunkLine).

(** The inner [while (i < patchLines.length)], given what the outer loop
    does from a position on. On [break] the header line is looked at
    again by the outer loop ([i--] and then the loop's [i++]). *)
Definition hunkBodyFrom
    (outer : list jsstring → applyState → result applyState)
  : list jsstring → applyState → result applyState :=
  fix inner (hunkLines : list jsstring) (st : applyState) :=
    match hunkLines with
    | [] => Ok st
    | hunkLine :: rest =>
        match hunkLineStep hunkLine st with
        | Continue st' => inner rest st'
        | Break => outer hunkLines st
        | Raise e => Throw e
        end
    end.

(** The outer [for (let i = 0; i < patchLines.length; i++)], on the patch
    lines from position [i] on. *)
Fixpoint scanPatch (patchLines : list jsstring) (st : applyState)
  : result applyState :=
  match patchLines with
  | [] => Ok st
  | line :: rest =>
      if isEmpty line || negb (startsWith (lit "@@ ") line)
      then scanPatch rest st
      else
        match hunkHeaderPattern line with
        | None => Throw (InvalidHunkHeader line)
        | Some g1 =>
            let startOld := Z.max (parseInt g1 - 1) 0 in
            match catchUp startOld st with
            | Throw e => Throw e
            | Ok st' => hunkBodyFrom scanPatch rest st'
            end
        end
  end.

Definition hunkBody : list jsstring → applyState → result applyState :=
  hunkBodyFrom scanPatch.

(** The closing [for (; sourceIndex < sourceLines.length; sourceIndex++)]. *)
Definition copyRest (st : applyState) : list jsstring :=
  outputLines st ++ drop (sourceIndex st) sourceLines.

End Apply.

Definition applyStart : applyState :=
  {| sourceIndex := 0; outputLines := [] |}.

Definition applyUnifiedDiff (baseText diffText : jsstring) : result jsstring :=
  let sourceLines := split LF (removeCR baseText) in
  let patchLines := split LF (removeCR diffText) in
  match scanPatch sourceLines patchLines applyStart with
  | Throw e => Throw e
  | Ok st => Ok (join LF (copyRest sourceLines st))
  end.

(** ** The vocabulary of the specification *)

(** The text of [s] before its first [sep]. *)
Fixpoint takeUntil (sep : N) (s : jsstring) : jsstring :=
  match s with
  | [] => []
  | c :: s' => if c =? sep then [] else c :: takeUntil sep s'
  end.

(** The path portion of a header line in the specification's words: the
    text after the four-character prefix, up to the first tab, trimmed. *)
Definition pathPortion (line : jsstring) : jsstring :=
  trim (takeUntil TAB (drop 4 line)).

(** A path portion the validator refuses. *)
Definition unexpectedPath (accepted : gset jsstring) (candidate : jsstring)
  : Prop :=
  candidate ≠ [] ∧ candidate ≠ devNull ∧
  ((normalizePatchPath (Some candidate) = None
    ∨ normalizePatchPath (Some candidate) = Some [])
   ∨ (∃ normalized, normalizePatchPath (Some candidate) = Some normalized
        ∧ (normalized ∉ accepted) ∧ (candidate ∉ accepted))).

Definition offendingLine (accepted : gset jsstring) (line : jsstring) : Prop :=
  (startsWith (lit "--- ") line = true ∨ startsWith (lit "+++ ") line = true)
  ∧ unexpectedPath accepted (pathPortion line).

(** The forms one element of [normalizedTargets] adds to the accepted
    set. *)
Definition acceptedForms (target : jsstring) : list jsstring :=
  match normalizePatchPath (Some target) with
  | Some restful =>
      if isEmpty restful then []
      else [restful; lit "a/" ++ restful; lit "b/" ++ restful]
  | None => []
  end.

(** The accepted set in the specification's words: each non-empty target
    is normalized once, and the path it yields enters bare and with the
    [a/] and [b/] prefixes. *)
Definition acceptedSetOnce (targets : targetPaths) : gset jsstring :=
  ⋃ ((λ value,
        match normalizePatchPath (Some value) with
        | Some p => {[ p; lit "a/" ++ p; lit "b/" ++ p ]}
        | None => ∅
        end) <$> List.filter (λ value, negb (isEmpty value))
                             (targetList targets)).

(** The diff of the identity property: a hunk header and then every line
    of the text behind the context marker. *)
Definition contextDiff (header text : jsstring) : jsstring :=
  header ++ LF :: join LF (List.map (cons SP) (split LF (removeCR text))).

(** The language of [hunkHeaderPattern], piece by piece: [\d+] and
    [(?:,\d+)?]. *)
Definition digitString (d : jsstring) : Prop :=
  d ≠ [] ∧ Forall (λ c, isDigit c = true) d.

Definition countSuffix (c : jsstring) : Prop :=
  c = [] ∨ ∃ d, c = 44 :: d ∧ digitString d.

(** What may follow a greedy run of digits. *)
Definition startsNoDigit (r : jsstring) : Prop :=
  match r with
  | [] => True
  | c :: _ => isDigit c = false
  end.

(** A line that can open a segment of [splitUnifiedDiffByFile]. *)
Definition startsSegment (line : jsstring) : bool :=
  startsWith (lit "diff --git ") line || startsWith (lit "--- ") line
  || startsWith (lit "+++ ") line || startsWith (lit "@@ ") line.

(** The lines from the first one that can open a segment. *)
Fixpoint fromFirstHeader (lines : list jsstring) : list jsstring :=
  match lines with
  | [] => []
  | line :: rest =>
      if startsSegment line then lines else fromFirstHeader rest
  end.

(** The path portion of the last line that starts with [prefix]. *)
Definition lastHeaderPath (prefix : jsstring) (lines : list jsstring)
  : option jsstring :=
  last (List.filter (startsWith prefix) lines) ≫= headerPath.

Definition segmentLines (p : ParsedFilePatch) : list jsstring :=
  split LF (patchText p).

(** A segment whose fields agree with its own text. *)
Definition wellFormedSegment (p : ParsedFilePatch) : Prop :=
  (∃ line, head (segmentLines p) = Some line ∧ startsSegment line = true)
  ∧ rawOldPath p = lastHeaderPath (lit "--- ") (segmentLines p)
  ∧ rawNewPath p = lastHeaderPath (lit "+++ ") (segmentLines p)
  ∧ oldPath p = normalizePatchPath (rawOldPath p)
  ∧ newPath p = normalizePatchPath (rawNewPath p).

(** What the loop of [splitUnifiedDiffByFile] keeps true, [done] being
    the lines read so far. *)
Definition splitInv (done : list jsstring) (st : splitState) : Prop :=
  Forall (λ l, LF ∉ l) (buffer st)
  ∧ Forall wellFormedSegment (patches st)
  ∧ concat (segmentLines <$> patches st) ++ buffer st = fromFirstHeader done
  ∧ if recording st
    then (∃ line, head (buffer st) = Some line ∧ startsSegment line = true)
         ∧ rawOld st = lastHeaderPath (lit "--- ") (buffer st)
         ∧ rawNew st = lastHeaderPath (lit "+++ ") (buffer st)
    else buffer st = [] ∧ patches st = []
         ∧ rawOld st = None ∧ rawNew st = None.

(** An edit script, the way a hunk body spells it: a line kept, a line
    deleted, a line inserted. *)
Inductive editOp : Type :=
  | Keep (l : jsstring)
  | Delete (l : jsstring)
  | Insert (l : jsstring).

Definition opLine (op : editOp) : jsstring :=
  match op with Keep l | Delete l | Insert l => l end.

Definition renderOp (op : editOp) : jsstring :=
  match op with
  | Keep l => SP :: l
  | Delete l => 45 :: l
  | Insert l => 43 :: l
  end.

Fixpoint oldSide (ops : list editOp) : list jsstring :=
  match ops with
  | [] => []
  | Keep l :: ops' | Delete l :: ops' => l :: oldSide ops'
  | Insert _ :: ops' => oldSide ops'
  end.

Fixpoint newSide (ops : list editOp) : list jsstring :=
  match ops with
  | [] => []
  | Keep l :: ops' | Insert l :: ops' => l :: newSide ops'
  | Delete _ :: ops' => newSide ops'
  end.

(** The rendered line is read as a body line, not as a path header. *)
Definition readAsBody (op : editOp) : bool :=
  match op with
  | Keep _ => true
  | Delete l => negb (startsWith (lit "-- ") l)
  | Insert l => negb (startsWith (lit "++ ") l)
  end.

(** A hunk: its header, the unchanged lines between the previous hunk and
    this one, and its edit script. *)
Record hunk : Type := {
  hHeader : jsstring;
  hGap : list jsstring;
  hOps : list editOp
}.

Definition hunkOld (h : hunk) : list jsstring := hGap h ++ oldSide (hOps h).
Definition hunkNew (h : hunk) : list jsstring := hGap h ++ newSide (hOps h).
Definition hunkLines (h : hunk) : list jsstring :=
  hHeader h :: List.map renderOp (hOps h).

(** The hunks follow one another from source line [pos] on: each header
    gives, as its old start, one more than the number of source lines
    before the hunk body. *)
Fixpoint hunksFrom (pos : nat) (hs : list hunk) : Prop :=
  match hs with
  | [] => True
  | h :: hs' =>
      (∃ g1, hunkHeaderPattern (hHeader h) = Some g1
             ∧ Z.max (parseInt g1 - 1) 0 = Z.of_nat (pos + length (hGap h)))
      ∧ Forall (λ op, readAsBody op = true) (hOps h)
      ∧ hunksFrom (pos + length (hunkOld h)) hs'
  end.

(** No line feed and no carriage return. *)
Definition oneLine (l : jsstring) : Prop := (LF ∉ l) ∧ (CR ∉ l).

Definition oneLineHunk (h : hunk) : Prop :=
  oneLine (hHeader h) ∧ Forall oneLine (hGap h)
  ∧ Forall (λ op, oneLine (opLine op)) (hOps h).

(** What a passed check says about a path of a segment: a path that is
    not null is not empty, and it or the raw path it came from is in the
    accepted set. *)
Definition authorizedPath (accepted : gset jsstring)
    (rawPath normalPath : option jsstring) : Prop :=
  ∀ n, normalPath = Some n →
    n ≠ [] ∧ (n ∈ accepted ∨ ∃ c, rawPath = Some c ∧ c ∈ accepted).

(** * Properties *)

(** ** Strings *)

Section StringFacts.

Implicit Types (s l : jsstring) (ls : list jsstring) (sep c : N).

Lemma isEmpty_true s : isEmpty s = true ↔ s = [].
Proof. destruct s; simpl; split; congruence. Qed.

Lemma isEmpty_false s : isEmpty s = false ↔ s ≠ [].
Proof. destruct s; simpl; split; congruence. Qed.

Lemma split_cons_sep sep s : split sep (sep :: s) = [] :: split sep s.
Proof.
  unfold split. simpl. destruct (splitAux sep s). by rewrite N.eqb_refl.
Qed.

Lemma split_cons_other sep c s :
  c ≠ sep →
  split sep (c :: s) =
    (c :: default [] (head (split sep s))) :: tail (split sep s).
Proof.
  intros Hc. unfold split. simpl. destruct (splitAux sep s).
  apply N.eqb_neq in Hc. by rewrite Hc.
Qed.

Lemma split_nonempty sep s : split sep s ≠ [].
Proof. unfold split. by destruct (splitAux sep s). Qed.

(** Joining the pieces gives the string back. *)
Lemma join_split sep s : join sep (split sep s) = s.
Proof.
  induction s as [|c s IH]; [done|].
  destruct (decide (c = sep)) as [->|Hc].
  - rewrite split_cons_sep. simpl.
    destruct (split sep s) eqn:E; [by apply split_nonempty in E|].
    by rewrite IH.
  - rewrite split_cons_other by done.
    destruct (split sep s) as [|p ps] eqn:E; [by apply split_nonempty in E|].
    simpl in *. destruct ps; simpl in *; by rewrite <- IH.
Qed.

(** No piece contains the separator. *)
Lemma split_pieces sep s : Forall (λ l, sep ∉ l) (split sep s).
Proof.
  induction s as [|c s IH].
  - repeat constructor. apply not_elem_of_nil.
  - destruct (decide (c = sep)) as [->|Hc].
    + rewrite split_cons_sep. constructor; [apply not_elem_of_nil | done].
    + rewrite split_cons_other by done.
      destruct (split sep s) as [|p ps]; simpl.
      * repeat constructor. set_solver.
      * inversion IH; subst. constructor; [set_solver | done].
Qed.

Lemma split_no_sep sep s : sep ∉ s → split sep s = [s].
Proof.
  induction s as [|c s IH]; [done|]. intros Hs.
  rewrite split_cons_other by set_solver.
  rewrite IH by set_solver. done.
Qed.

Lemma split_app_sep sep l s :
  sep ∉ l → split sep (l ++ sep :: s) = l :: split sep s.
Proof.
  induction l as [|c l IH]; intros Hl; simpl.
  - apply split_cons_sep.
  - rewrite split_cons_other by set_solver.
    rewrite IH by set_solver. done.
Qed.

(** Splitting a join of separator-free lines gives the lines back. *)
Lemma split_join sep ls :
  ls ≠ [] → Forall (λ l, sep ∉ l) ls → split sep (join sep ls) = ls.
Proof.
  induction ls as [|l ls IH]; [done|]. intros _ Hall.
  inversion Hall as [|? ? Hl Hls]; subst.
  destruct ls as [|l' ls'].
  - simpl. by apply split_no_sep.
  - change (join sep (l :: l' :: ls')) with (l ++ sep :: join sep (l' :: ls')).
    rewrite split_app_sep by done. by rewrite IH.
Qed.

Lemma removeCR_id s : CR ∉ s → removeCR s = s.
Proof.
  unfold removeCR. induction s as [|c s IH]; [done|]. intros Hs.
  rewrite filter_cons_True by set_solver. rewrite IH by set_solver. done.
Qed.

Lemma removeCR_no_CR s : CR ∉ removeCR s.
Proof. unfold removeCR. rewrite list_elem_of_filter. tauto. Qed.

End StringFacts.

(** ** sanitizePatchTargets *)

Lemma head_split sep s : head (split sep s) = Some (takeUntil sep s).
Proof.
  induction s as [|c s IH]; [done|].
  destruct (decide (c = sep)) as [->|Hc].
  - rewrite split_cons_sep. simpl. by rewrite N.eqb_refl.
  - rewrite split_cons_other by done. simpl. rewrite IH. simpl.
    apply N.eqb_neq in Hc. by rewrite Hc.
Qed.

Lemma headerPath_pathPortion line : headerPath line = Some (pathPortion line).
Proof. unfold headerPath, pathPortion, slice. by rewrite head_split. Qed.

Lemma checkLine_throws accepted line e :
  checkLine accepted line = Some e ↔
  offendingLine accepted line ∧ e = UnexpectedPath (pathPortion line).
Proof.
  unfold checkLine, offendingLine, unexpectedPath, isPathHeader.
  rewrite headerPath_pathPortion.
  change (default [] (Some (pathPortion line))) with (pathPortion line).
  generalize (pathPortion line). intros candidate.
  generalize (normalizePatchPath (Some candidate)). intros nf.
  assert (startsWith (lit "--- ") line || startsWith (lit "+++ ") line = true
          ↔ startsWith (lit "--- ") line = true
            ∨ startsWith (lit "+++ ") line = true) as Hstart
    by apply orb_true_iff.
  destruct (startsWith (lit "--- ") line || startsWith (lit "+++ ") line);
    [| split; [done | intros [[?%Hstart _] _]; done]].
  assert (startsWith (lit "--- ") line = true
          ∨ startsWith (lit "+++ ") line = true) as Hhdr by by apply Hstart.
  clear Hstart.
  destruct (isEmpty candidate) eqn:Hemp; cbn.
  { apply isEmpty_true in Hemp. split; [done | intros [(_ & ? & _) _]; done]. }
  apply isEmpty_false in Hemp.
  case_bool_decide as Hdev; cbn.
  { split; [done | intros [(_ & _ & ? & _) _]; done]. }
  destruct nf as [n|].
  2: { split; [intros [= <-]; split_and!; auto | intros [_ ->]; done]. }
  destruct (isEmpty n) eqn:Hne; cbn.
  { apply isEmpty_true in Hne. subst n.
    split; [intros [= <-]; split_and!; auto | intros [_ ->]; done]. }
  apply isEmpty_false in Hne.
  repeat case_bool_decide; cbn.
  all: split; [intros [= <-] || intros [=] | intros [(_ & _ & _ & Hbad) ->]].
  all: try (split_and!; eauto 10; fail).
  all: try done.
  all: destruct Hbad as [[[=]|[= ->]]|(n' & [= <-] & ? & ?)]; done.
Qed.

Lemma checkLine_passes accepted line :
  checkLine accepted line = None ↔ ¬ offendingLine accepted line.
Proof.
  split.
  - intros Hnone Hoff.
    assert (checkLine accepted line = Some (UnexpectedPath (pathPortion line)))
      as Hsome by by apply checkLine_throws.
    congruence.
  - intros Hoff. destruct (checkLine accepted line) as [e|] eqn:E; [|done].
    apply checkLine_throws in E as [? _]. done.
Qed.

Lemma checkLines_outcome accepted lines :
  match checkLines accepted lines with
  | Ok _ => ∀ line, line ∈ lines → ¬ offendingLine accepted line
  | Throw e =>
      ∃ before line after,
        lines = before ++ line :: after
        ∧ (∀ l, l ∈ before → ¬ offendingLine accepted l)
        ∧ offendingLine accepted line
        ∧ e = UnexpectedPath (pathPortion line)
  end.
Proof.
  induction lines as [|line rest IH]; simpl.
  - intros line Hin. by apply elem_of_nil in Hin.
  - destruct (checkLine accepted line) as [e|] eqn:E.
    + apply checkLine_throws in E as [Hoff ->].
      exists [], line, rest. split_and!; try done.
      intros l Hl. by apply elem_of_nil in Hl.
    + apply checkLine_passes in E.
      destruct (checkLines accepted rest) as [[]|e].
      * intros l [->|Hl]%elem_of_cons; auto.
      * destruct IH as (before & l & after & -> & Hbefore & Hoff & ->).
        exists (line :: before), l, after. split_and!; try done.
        intros l' [->|Hl']%elem_of_cons; auto.
Qed.

(** C1. [sanitizePatchTargets] throws the "Patch references unexpected
    file path" error exactly when some line of the patch starts with
    "--- " or "+++ " and its path portion is non-empty, is not /dev/null
    and either has no (or an empty) normal form or is absent from the
    accepted set both normalized and raw. The error names the path
    portion of the first such line; with no such line the call returns. *)
Theorem sanitizePatchTargets_throws_iff
    (patchText : jsstring) (targets : targetPaths) :
  ((∃ candidate,
       sanitizePatchTargets patchText targets
       = Throw (UnexpectedPath candidate))
   ↔ ∃ line, line ∈ split LF patchText
       ∧ offendingLine (acceptedSet targets) line)
  ∧ match sanitizePatchTargets patchText targets with
    | Ok _ =>
        ∀ line, line ∈ split LF patchText
          → ¬ offendingLine (acceptedSet targets) line
    | Throw e =>
        ∃ before line after,
          split LF patchText = before ++ line :: after
          ∧ (∀ l, l ∈ before → ¬ offendingLine (acceptedSet targets) l)
          ∧ offendingLine (acceptedSet targets) line
          ∧ e = UnexpectedPath (pathPortion line)
          ∧ errorMessage e
            = lit "Patch references unexpected file path: "
              ++ pathPortion line
    end.
Proof.
  unfold sanitizePatchTargets.
  pose proof (checkLines_outcome (acceptedSet targets) (split LF patchText))
    as Hout.
  split.
  2: { destruct (checkLines (acceptedSet targets) (split LF patchText));
         [done|].
       destruct Hout as (before & line & after & ? & ? & ? & ->).
       by exists before, line, after. }
  destruct (checkLines (acceptedSet targets) (split LF patchText)) as [[]|e].
  - split; [intros [? [=]] | intros (line & Hin & Hoff); by apply Hout in Hin].
  - destruct Hout as (before & line & after & Heq & _ & Hoff & ->).
    split; [intros _ | intros _; eauto].
    exists line. split; [|done]. rewrite Heq. set_solver.
Qed.

Lemma elem_of_addTarget accepted target x :
  x ∈ addTarget accepted target ↔ x ∈ acceptedForms target ∨ x ∈ accepted.
Proof.
  unfold addTarget, acceptedForms.
  destruct (normalizePatchPath (Some target)) as [restful|]; [|set_solver].
  destruct (isEmpty restful); set_solver.
Qed.

Lemma elem_of_fold_addTarget ts accepted x :
  x ∈ fold_left addTarget ts accepted ↔
  (∃ target, target ∈ ts ∧ x ∈ acceptedForms target) ∨ x ∈ accepted.
Proof.
  revert accepted. induction ts as [|t ts IH]; intros accepted; simpl.
  - set_solver.
  - rewrite IH, elem_of_addTarget. set_solver.
Qed.

Lemma elem_of_acceptedSet targets x :
  x ∈ acceptedSet targets ↔
  ∃ value, value ∈ targetList targets ∧ value ≠ []
    ∧ x ∈ acceptedForms (default value (normalizePatchPath (Some value))).
Proof.
  unfold acceptedSet, normalizedTargets.
  rewrite elem_of_fold_addTarget. split.
  - intros [(target & Hin & Hx)|Hx]; [|set_solver].
    apply list_elem_of_In, in_map_iff in Hin as (value & <- & Hin).
    apply filter_In in Hin as [Hin Hne].
    exists value. split_and!; [by apply list_elem_of_In | | done].
    by apply isEmpty_false, negb_true_iff.
  - intros (value & Hin & Hne & Hx). left.
    exists (default value (normalizePatchPath (Some value))). split; [|done].
    apply list_elem_of_In, in_map_iff. exists value. split; [done|].
    apply filter_In. split; [by apply list_elem_of_In|].
    by apply negb_true_iff, isEmpty_false.
Qed.

(** C2. On the target [a/b/x.txt] the accepted set is not the one a
    single normalization gives: the path is normalized a second time, so
    the set holds [x.txt], [a/x.txt] and [b/x.txt]; [a/b/x.txt] and
    [b/b/x.txt] are missing, and a patch whose headers name the target
    itself is refused. *)
Theorem acceptedSet_normalizes_twice :
  let target := OnePath (lit "a/b/x.txt") in
  acceptedSet target = {[ lit "x.txt"; lit "a/x.txt"; lit "b/x.txt" ]}
  ∧ acceptedSetOnce target
    = {[ lit "b/x.txt"; lit "a/b/x.txt"; lit "b/b/x.txt" ]}
  ∧ (lit "a/b/x.txt" ∉ acceptedSet target)
  ∧ (lit "b/b/x.txt" ∉ acceptedSet target)
  ∧ sanitizePatchTargets
      (join LF [lit "--- a/a/b/x.txt"; lit "+++ b/a/b/x.txt"]) target
    = Throw (UnexpectedPath (lit "a/a/b/x.txt")).
Proof.
  split_and!.
  - apply set_eq. intros x. rewrite elem_of_acceptedSet. cbn [targetList].
    split.
    + intros (value & ->%list_elem_of_singleton & _ & Hx).
      vm_compute in Hx. set_solver.
    + intros Hx. exists (lit "a/b/x.txt"). split_and!; [set_solver|done|].
      vm_compute. set_solver.
  - vm_compute. reflexivity.
  - by vm_compute.
  - by vm_compute.
  - by vm_compute.
Qed.

(** ** splitUnifiedDiffByFile *)

Lemma hasRawPath_true p :
  hasRawPath p = true ↔ rawOldPath p ≠ None ∨ rawNewPath p ≠ None.
Proof.
  unfold hasRawPath. rewrite orb_true_iff, !negb_true_iff.
  rewrite !bool_decide_eq_false. done.
Qed.

(** C7. The model is a total function with no error result, as the source
    has no [throw] and calls only total string and array operations; and
    a segment is returned exactly when it was collected and one of its
    raw paths is not null. *)
Theorem splitUnifiedDiffByFile_raw_path (patchText : jsstring) :
  Forall (λ p, rawOldPath p ≠ None ∨ rawNewPath p ≠ None)
         (splitUnifiedDiffByFile patchText)
  ∧ ∀ p, p ∈ splitUnifiedDiffByFile patchText
         ↔ p ∈ collectedPatches patchText
           ∧ (rawOldPath p ≠ None ∨ rawNewPath p ≠ None).
Proof.
  assert (∀ p, p ∈ splitUnifiedDiffByFile patchText
         ↔ p ∈ collectedPatches patchText
           ∧ (rawOldPath p ≠ None ∨ rawNewPath p ≠ None)) as Hiff.
  { intros p. unfold splitUnifiedDiffByFile.
    rewrite !list_elem_of_In, filter_In, hasRawPath_true. done. }
  split; [|done].
  apply Forall_forall. intros p Hp. by apply Hiff in Hp as [_ ?].
Qed.

(** ** applyUnifiedDiff: the loops *)

Section ApplyFacts.

Variable sourceLines : list jsstring.

Implicit Types (st : applyState) (rest : list jsstring).

Lemma hunkBody_nil st : hunkBody sourceLines [] st = Ok st.
Proof. reflexivity. Qed.

Lemma hunkBody_cons hunkLine rest st :
  hunkBody sourceLines (hunkLine :: rest) st =
  match hunkLineStep sourceLines hunkLine st with
  | Continue st' => hunkBody sourceLines rest st'
  | Break => scanPatch sourceLines (hunkLine :: rest) st
  | Raise e => Throw e
  end.
Proof. reflexivity. Qed.

Lemma scanPatch_cons line rest st :
  scanPatch sourceLines (line :: rest) st =
  if isEmpty line || negb (startsWith (lit "@@ ") line)
  then scanPatch sourceLines rest st
  else
    match hunkHeaderPattern line with
    | None => Throw (InvalidHunkHeader line)
    | Some g1 =>
        match catchUp sourceLines (Z.max (parseInt g1 - 1) 0) st with
        | Throw e => Throw e
        | Ok st' => hunkBody sourceLines rest st'
        end
    end.
Proof. reflexivity. Qed.

(** The catch-up loop as the source writes it. *)
Lemma catchUp_unfold startOld st :
  catchUp sourceLines startOld st =
  if (Z.of_nat (sourceIndex st) <? startOld)%Z then
    match sourceLines !! sourceIndex st with
    | None => Throw HunkExceedsOriginal
    | Some originalLine =>
        catchUp sourceLines startOld
          {| sourceIndex := S (sourceIndex st);
             outputLines := outputLines st ++ [originalLine] |}
    end
  else Ok st.
Proof.
  unfold catchUp. cbn [sourceIndex].
  destruct (sourceLines !! sourceIndex st) as [l|] eqn:E.
  - rewrite (drop_S _ _ _ E). reflexivity.
  - rewrite drop_ge by by apply lookup_ge_None. reflexivity.
Qed.

Lemma catchUpFrom_closed remaining startOld st :
  catchUpFrom remaining startOld st =
  if (Z.of_nat (sourceIndex st) <? startOld)%Z then
    if (startOld <=? Z.of_nat (sourceIndex st + length remaining))%Z then
      Ok {| sourceIndex := Z.to_nat startOld;
            outputLines :=
              outputLines st
              ++ take (Z.to_nat startOld - sourceIndex st) remaining |}
    else Throw HunkExceedsOriginal
  else Ok st.
Proof.
  revert st. induction remaining as [|l remaining IH]; intros [si out];
    cbn [catchUpFrom sourceIndex outputLines].
  - destruct (Z.ltb_spec (Z.of_nat si) startOld); [|done].
    destruct (Z.leb_spec startOld (Z.of_nat (si + length (@nil jsstring))));
      [simpl in *; lia | done].
  - destruct (Z.ltb_spec (Z.of_nat si) startOld) as [Hlt|Hge]; [|done].
    rewrite IH. cbn [sourceIndex outputLines length].
    replace (S si + length remaining)%nat with (si + S (length remaining))%nat
      by lia.
    destruct (Z.leb_spec startOld (Z.of_nat (si + S (length remaining))))
      as [Hin|Hout].
    + destruct (Z.ltb_spec (Z.of_nat (S si)) startOld) as [Hlt'|Hge'].
      * replace (Z.to_nat startOld - si)%nat
          with (S (Z.to_nat startOld - S si)) by lia.
        cbn [take]. by rewrite <- app_assoc.
      * replace (Z.to_nat startOld - si)%nat with 1%nat by lia.
        replace (Z.to_nat startOld) with (S si) by lia.
        cbn [take]. by rewrite take_0.
    + destruct (Z.ltb_spec (Z.of_nat (S si)) startOld); [done | lia].
Qed.

Lemma catchUp_closed startOld st :
  catchUp sourceLines startOld st =
  if (Z.of_nat (sourceIndex st) <? startOld)%Z then
    if (startOld <=? Z.of_nat (length sourceLines))%Z then
      Ok {| sourceIndex := Z.to_nat startOld;
            outputLines :=
              outputLines st
              ++ take (Z.to_nat startOld - sourceIndex st)
                      (drop (sourceIndex st) sourceLines) |}
    else Throw HunkExceedsOriginal
  else Ok st.
Proof.
  unfold catchUp. rewrite catchUpFrom_closed, length_drop.
  destruct (Z.ltb_spec (Z.of_nat (sourceIndex st)) startOld); [|done].
  destruct (Z.leb_spec startOld (Z.of_nat (length sourceLines)));
    destruct (Z.leb_spec startOld
      (Z.of_nat (sourceIndex st + (length sourceLines - sourceIndex st))));
    done || lia.
Qed.

(** In the scanning state a line that does not start a hunk is passed. *)
Lemma scanPatch_skip line rest st :
  startsWith (lit "@@ ") line = false →
  scanPatch sourceLines (line :: rest) st = scanPatch sourceLines rest st.
Proof.
  intros H. rewrite scanPatch_cons, H. by rewrite orb_true_r.
Qed.

Lemma scanPatch_skip_all before rest st :
  Forall (λ line, startsWith (lit "@@ ") line = false) before →
  scanPatch sourceLines (before ++ rest) st = scanPatch sourceLines rest st.
Proof.
  induction 1 as [|line before Hline _ IH]; [done|].
  simpl app. by rewrite scanPatch_skip.
Qed.

Lemma startsWith_prefix p q s :
  startsWith (p ++ q) s = true → startsWith p s = true.
Proof.
  revert s. induction p as [|a p IH]; intros [|b s]; simpl; try done.
  intros [-> ?]%andb_prop. simpl. eauto.
Qed.

Lemma hunkHeaderPattern_startsWith line g1 :
  hunkHeaderPattern line = Some g1 →
  isEmpty line || negb (startsWith (lit "@@ ") line) = false.
Proof.
  unfold hunkHeaderPattern. intros H.
  destruct (startsWith (lit "@@ -") line) eqn:E;
    [| unfold expect in H; by rewrite E in H].
  change (lit "@@ -") with (lit "@@ " ++ lit "-") in E.
  apply startsWith_prefix in E. rewrite E.
  destruct line; [done|]. reflexivity.
Qed.

(** A hunk header: catch up to [startOld], then the hunk body. *)
Lemma scanPatch_header line g1 rest st :
  hunkHeaderPattern line = Some g1 →
  scanPatch sourceLines (line :: rest) st =
  match catchUp sourceLines (Z.max (parseInt g1 - 1) 0) st with
  | Throw e => Throw e
  | Ok st' => hunkBody sourceLines rest st'
  end.
Proof.
  intros H. rewrite scanPatch_cons.
  rewrite (hunkHeaderPattern_startsWith _ _ H). by rewrite H.
Qed.

Lemma startsWith_head_ne a p c s :
  head p = Some a → a ≠ c → startsWith p (c :: s) = false.
Proof.
  destruct p as [|a' p]; [done|]. intros [= ->] Hne. simpl.
  apply N.eqb_neq in Hne. by rewrite Hne.
Qed.

(** The dispatch on the marker, for a line the guards let through. *)
Lemma hunkLineStep_marker c payload st :
  c ≠ 64 → c ≠ 92 → (c = 45 ∨ c = 43 → isHeaderLine (c :: payload) = false) →
  hunkLineStep sourceLines (c :: payload) st =
  if bool_decide (c = SP) then
    if bool_decide (payload = actualLine sourceLines st)
    then Continue {| sourceIndex := S (sourceIndex st);
                     outputLines :=
                       outputLines st ++ [actualLine sourceLines st] |}
    else Raise (ContextMismatch payload (actualLine sourceLines st))
  else if bool_decide (c = 45) then
    if bool_decide (payload = actualLine sourceLines st)
    then Continue {| sourceIndex := S (sourceIndex st);
                     outputLines := outputLines st |}
    else Raise (DeletionMismatch payload (actualLine sourceLines st))
  else if bool_decide (c = 43) then
    Continue {| sourceIndex := sourceIndex st;
                outputLines := outputLines st ++ [payload] |}
  else if isWhiteSpace c then
    Continue {| sourceIndex := sourceIndex st;
                outputLines := outputLines st ++ [ [] ] |}
  else Raise (UnsupportedPatchLine (c :: payload)).
Proof.
  intros Hat Hbs Hhdr. unfold hunkLineStep. cbn [isEmpty].
  assert (isHeaderLine (c :: payload) = false) as ->.
  { destruct (decide (c = 45 ∨ c = 43)) as [|Hno]; [auto|].
    unfold isHeaderLine.
    rewrite (startsWith_head_ne 64 (lit "@@ ")),
      (startsWith_head_ne 45 (lit "--- ")),
      (startsWith_head_ne 43 (lit "+++ ")); try done; naive_solver. }
  rewrite (startsWith_head_ne 92 (lit "\ No newline")) by done.
  change (take 1 (c :: payload)) with [c].
  change (slice 1 (c :: payload)) with payload.
  assert (isEmpty (trim [c]) = isWhiteSpace c) as ->.
  { unfold trim, trimEnd. cbn [trimStart].
    destruct (isWhiteSpace c) eqn:Hws; [done|].
    change (reverse [c]) with [c]. cbn [trimStart]. by rewrite Hws. }
  change (lit " ") with [SP]. change (lit "-") with [45]. change (lit "+") with [43].
  assert (∀ a, bool_decide ([c] = [a]) = bool_decide (c = a)) as Hm.
  { intros a. apply bool_decide_ext. naive_solver. }
  rewrite !Hm.
  repeat case_bool_decide; done.
Qed.

End ApplyFacts.

(** ** applyUnifiedDiff: hunk body lines *)

Lemma applyUnifiedDiff_scan baseText diffText :
  applyUnifiedDiff baseText diffText =
  match scanPatch (split LF (removeCR baseText))
                  (split LF (removeCR diffText)) applyStart with
  | Throw e => Throw e
  | Ok st => Ok (join LF (copyRest (split LF (removeCR baseText)) st))
  end.
Proof. reflexivity. Qed.

(** C3. A hunk line that starts with a space is compared with the source
    line at the cursor. When they differ the hunk body, and with it the
    call, ends in the "Context mismatch" error, whose message shows the
    expected and the actual text; when they agree the line is appended to
    the output and the cursor moves on by one. *)
Theorem context_line_checked
    (sourceLines : list jsstring) (payload : jsstring)
    (rest : list jsstring) (st : applyState) :
  let actual := actualLine sourceLines st in
  let st' := {| sourceIndex := S (sourceIndex st);
                outputLines := outputLines st ++ [payload] |} in
  hunkLineStep sourceLines (SP :: payload) st
    = (if bool_decide (payload = actual) then Continue st'
       else Raise (ContextMismatch payload actual))
  ∧ hunkBody sourceLines ((SP :: payload) :: rest) st
    = (if bool_decide (payload = actual) then hunkBody sourceLines rest st'
       else Throw (ContextMismatch payload actual))
  ∧ errorMessage (ContextMismatch payload actual)
    = lit "Context mismatch while applying patch." ++ [LF]
      ++ lit "Expected: " ++ [QUOTE] ++ payload ++ [QUOTE; LF]
      ++ lit "Actual: " ++ [QUOTE] ++ actual ++ [QUOTE]
  ∧ ∀ baseText diffText header g1,
      split LF (removeCR diffText) = header :: (SP :: payload) :: rest
      → hunkHeaderPattern header = Some g1
      → (parseInt g1 ≤ 1)%Z
      → payload ≠ default [] (head (split LF (removeCR baseText)))
      → applyUnifiedDiff baseText diffText
        = Throw (ContextMismatch payload
                   (default [] (head (split LF (removeCR baseText))))).
Proof.
  intros actual st'.
  assert (hunkLineStep sourceLines (SP :: payload) st
    = (if bool_decide (payload = actual) then Continue st'
       else Raise (ContextMismatch payload actual))) as Hstep.
  { rewrite hunkLineStep_marker by done.
    rewrite (bool_decide_eq_true_2 (SP = SP)) by done. fold actual.
    case_bool_decide as E; [|done]. subst st'. by rewrite <- E. }
  split_and!; [done | | done |].
  - rewrite hunkBody_cons, Hstep. by case_bool_decide.
  - intros baseText diffText header g1 Hdiff Hhdr Hstart Hne.
    rewrite applyUnifiedDiff_scan, Hdiff.
    rewrite (scanPatch_header _ _ _ _ _ Hhdr), catchUp_closed.
    cbn [applyStart sourceIndex].
    destruct (Z.ltb_spec (Z.of_nat 0) (Z.max (parseInt g1 - 1) 0)); [lia|].
    rewrite hunkBody_cons, hunkLineStep_marker by done.
    rewrite (bool_decide_eq_true_2 (SP = SP)) by done.
    unfold actualLine. cbn [sourceIndex]. rewrite <- head_lookup.
    by rewrite bool_decide_eq_false_2.
Qed.

Lemma context_line_checked_witness :
  applyUnifiedDiff (join LF [lit "alpha"; lit "beta"])
    (join LF [lit "@@ -1,2 +1,2 @@"; lit " alpha"; lit " gamma"])
  = Throw (ContextMismatch (lit "gamma") (lit "beta"))
  ∧ applyUnifiedDiff (join LF [lit "alpha"; lit "beta"])
      (join LF [lit "@@ -1,2 +1,2 @@"; lit " omega"; lit " beta"])
    = Throw (ContextMismatch (lit "omega") (lit "alpha")).
Proof.
  split; [reflexivity|].
  refine (proj2 (proj2 (proj2
    (context_line_checked [lit "alpha"; lit "beta"] (lit "omega")
       [lit " beta"] applyStart)))
    (join LF [lit "alpha"; lit "beta"]) _ (lit "@@ -1,2 +1,2 @@") (lit "1")
    _ _ _ _).
  - reflexivity.
  - reflexivity.
  - vm_compute. discriminate.
  - vm_compute. discriminate.
Defined.

(** C6, as the code has it. An empty line inside a hunk body is passed
    over: nothing is appended to the output and no source line is
    consumed. *)
Theorem empty_hunk_line_skipped
    (sourceLines : list jsstring) (rest : list jsstring) (st : applyState) :
  hunkLineStep sourceLines [] st = Continue st
  ∧ hunkBody sourceLines ([] :: rest) st = hunkBody sourceLines rest st.
Proof. split; reflexivity. Qed.

(** C6, as stated, fails: with the base text "a" and a hunk made of an
    empty line and the context line " a", the result is "a", not an empty
    line followed by "a". *)
Lemma empty_hunk_line_adds_no_output :
  let diffText := join LF [lit "@@ -1 +1 @@"; []; lit " a"] in
  applyUnifiedDiff (lit "a") diffText = Ok (lit "a")
  ∧ applyUnifiedDiff (lit "a") diffText ≠ Ok (join LF [[]; lit "a"])
  ∧ ∀ st', hunkLineStep [lit "a"] [] applyStart = Continue st'
      → outputLines st' ≠ outputLines applyStart ++ [ [] ].
Proof.
  split_and!; [by vm_compute | by vm_compute |].
  intros st' [= <-]. by vm_compute.
Qed.

(** C8. With the cursor at or past the end of the source the missing line
    counts as the empty string: a context line passes exactly when its
    payload is empty, and then appends an empty line and moves the cursor
    further past the end; a deletion line (one the marker dispatch sees,
    so not a "--- " header) passes exactly when its payload is empty, and
    then only moves the cursor; otherwise each ends in its mismatch
    error. *)
Theorem lines_past_the_end
    (sourceLines : list jsstring) (payload : jsstring) (st : applyState) :
  (length sourceLines ≤ sourceIndex st)%nat →
  actualLine sourceLines st = []
  ∧ hunkLineStep sourceLines (SP :: payload) st
    = (if bool_decide (payload = [])
       then Continue {| sourceIndex := S (sourceIndex st);
                        outputLines := outputLines st ++ [ [] ] |}
       else Raise (ContextMismatch payload []))
  ∧ (isHeaderLine (45 :: payload) = false →
     hunkLineStep sourceLines (45 :: payload) st
     = (if bool_decide (payload = [])
        then Continue {| sourceIndex := S (sourceIndex st);
                         outputLines := outputLines st |}
        else Raise (DeletionMismatch payload []))).
Proof.
  intros Hend.
  assert (actualLine sourceLines st = []) as Hactual.
  { unfold actualLine. by rewrite lookup_ge_None_2. }
  split_and!; [done | |].
  - rewrite hunkLineStep_marker by done. rewrite Hactual.
    rewrite (bool_decide_eq_true_2 (SP = SP)) by done.
    repeat case_bool_decide; done.
  - intros Hhdr. rewrite hunkLineStep_marker by done. rewrite Hactual.
    rewrite (bool_decide_eq_false_2 (45 = SP)) by done.
    rewrite (bool_decide_eq_true_2 (45 = 45)) by done.
    repeat case_bool_decide; done.
Qed.

Lemma lines_past_the_end_witness :
  (length [lit "a"] ≤ 1)%nat
  ∧ hunkLineStep [lit "a"] (lit " ")
      {| sourceIndex := 1; outputLines := [lit "a"] |}
    = Continue {| sourceIndex := 2; outputLines := [lit "a"; []] |}.
Proof.
  split; [simpl; lia|].
  apply (lines_past_the_end [lit "a"] []
           {| sourceIndex := 1; outputLines := [lit "a"] |}).
  simpl; lia.
Defined.

(** C10. A non-empty hunk line whose first code unit is white space other
    than the space is not refused: one empty line is appended to the
    output, the rest of the line is dropped and the cursor stays. *)
Theorem whitespace_marker_line
    (sourceLines : list jsstring) (c : N) (content : jsstring)
    (rest : list jsstring) (st : applyState) :
  isWhiteSpace c = true → c ≠ SP →
  let st' := {| sourceIndex := sourceIndex st;
                outputLines := outputLines st ++ [ [] ] |} in
  hunkLineStep sourceLines (c :: content) st = Continue st'
  ∧ hunkBody sourceLines ((c :: content) :: rest) st
    = hunkBody sourceLines rest st'.
Proof.
  intros Hws Hsp st'.
  assert (hunkLineStep sourceLines (c :: content) st = Continue st') as Hstep.
  { assert (c ≠ 64 ∧ c ≠ 92 ∧ c ≠ 45 ∧ c ≠ 43) as (? & ? & ? & ?)
      by (split_and!; intros ->; done).
    rewrite hunkLineStep_marker by naive_solver.
    rewrite !bool_decide_eq_false_2 by done. by rewrite Hws. }
  split; [done|]. by rewrite hunkBody_cons, Hstep.
Qed.

Lemma whitespace_marker_line_witness :
  isWhiteSpace TAB = true ∧ TAB ≠ SP
  ∧ hunkLineStep [lit "a"] (TAB :: lit "text") applyStart
    = Continue {| sourceIndex := 0; outputLines := [ [] ] |}.
Proof.
  split_and!; [reflexivity | done |].
  apply (whitespace_marker_line [lit "a"] TAB (lit "text") [] applyStart);
    [reflexivity | done].
Defined.

(** ** applyUnifiedDiff: catching up to a hunk *)

(** C4. Before a hunk body the source lines from the cursor up to
    [startOld = max (oldStart - 1) 0] are copied to the output; when
    [startOld] lies beyond the last source line the catch-up ends in
    "Patch hunk exceeds original file length.", and so does the whole
    call when this happens at the first hunk header, however large the
    old start is. *)
Theorem catch_up_copies_or_exceeds (sourceLines : list jsstring) :
  (∀ startOld st,
     catchUp sourceLines startOld st =
     if (Z.of_nat (sourceIndex st) <? startOld)%Z then
       if (startOld <=? Z.of_nat (length sourceLines))%Z then
         Ok {| sourceIndex := Z.to_nat startOld;
               outputLines :=
                 outputLines st
                 ++ take (Z.to_nat startOld - sourceIndex st)
                         (drop (sourceIndex st) sourceLines) |}
       else Throw HunkExceedsOriginal
     else Ok st)
  ∧ (∀ line g1 rest st,
       hunkHeaderPattern line = Some g1 →
       scanPatch sourceLines (line :: rest) st =
       match catchUp sourceLines (Z.max (parseInt g1 - 1) 0) st with
       | Throw e => Throw e
       | Ok st' => hunkBody sourceLines rest st'
       end)
  ∧ (∀ baseText diffText before header g1 rest,
       sourceLines = split LF (removeCR baseText) →
       split LF (removeCR diffText) = before ++ header :: rest →
       Forall (λ line, startsWith (lit "@@ ") line = false) before →
       hunkHeaderPattern header = Some g1 →
       (Z.of_nat (length sourceLines) < Z.max (parseInt g1 - 1) 0)%Z →
       applyUnifiedDiff baseText diffText = Throw HunkExceedsOriginal).
Proof.
  split_and!.
  - apply catchUp_closed.
  - apply scanPatch_header.
  - intros baseText diffText before header g1 rest -> Hdiff Hbefore Hhdr Hbig.
    rewrite applyUnifiedDiff_scan, Hdiff.
    rewrite scanPatch_skip_all by done.
    rewrite (scanPatch_header _ _ _ _ _ Hhdr), catchUp_closed.
    cbn [applyStart sourceIndex].
    destruct (Z.ltb_spec (Z.of_nat 0)
      (Z.max (parseInt g1 - 1) 0)); [|lia].
    destruct (Z.leb_spec (Z.max (parseInt g1 - 1) 0)
      (Z.of_nat (length (split LF (removeCR baseText))))); [lia | done].
Qed.

Lemma catch_up_copies_or_exceeds_witness :
  applyUnifiedDiff (join LF [lit "a"; lit "b"])
    (join LF [lit "--- a/f"; lit "+++ b/f";
              lit "@@ -340282366920938463463374607431768211456,2 +1,2 @@";
              lit "-a"])
  = Throw HunkExceedsOriginal.
Proof.
  eapply (proj2 (proj2 (catch_up_copies_or_exceeds [lit "a"; lit "b"]))
            (join LF [lit "a"; lit "b"]) _
            [lit "--- a/f"; lit "+++ b/f"]
            (lit "@@ -340282366920938463463374607431768211456,2 +1,2 @@")
            (lit "340282366920938463463374607431768211456")
            [lit "-a"]).
  - reflexivity.
  - reflexivity.
  - repeat constructor.
  - reflexivity.
  - vm_compute. reflexivity.
Defined.

(** ** applyUnifiedDiff: whole texts *)

Lemma elem_of_join_piece (sep c : N) (l : jsstring) (ls : list jsstring) :
  l ∈ ls → c ∈ l → c ∈ join sep ls.
Proof.
  induction ls as [|l' ls IH]; [by intros ?%elem_of_nil|].
  intros Hin Hc. destruct ls as [|l'' ls].
  - apply list_elem_of_singleton in Hin as ->. done.
  - change (join sep (l' :: l'' :: ls))
      with (l' ++ sep :: join sep (l'' :: ls)).
    apply elem_of_cons in Hin as [->|Hin]; set_solver.
Qed.

Lemma elem_of_join (sep c : N) (ls : list jsstring) :
  c ∈ join sep ls → c = sep ∨ ∃ l, l ∈ ls ∧ c ∈ l.
Proof.
  induction ls as [|l ls IH]; [by intros ?%elem_of_nil|].
  destruct ls as [|l' ls].
  - intros Hc. right. exists l. set_solver.
  - change (join sep (l :: l' :: ls)) with (l ++ sep :: join sep (l' :: ls)).
    rewrite elem_of_app, elem_of_cons. intros [Hc|[->|Hc]].
    + right. exists l. set_solver.
    + by left.
    + destruct (IH Hc) as [->|(l0 & Hl0 & Hc0)]; [by left|].
      right. exists l0. set_solver.
Qed.

Lemma split_piece_elem (sep c : N) (s l : jsstring) :
  l ∈ split sep s → c ∈ l → c ∈ s.
Proof.
  intros Hl Hc. rewrite <- (join_split sep s). by eapply elem_of_join_piece.
Qed.

(** A hunk body of context lines that repeat the rest of the source. *)
Lemma hunkBody_all_context (sourceLines copied remaining : list jsstring)
    (out : list jsstring) :
  sourceLines = copied ++ remaining →
  hunkBody sourceLines (List.map (cons SP) remaining)
    {| sourceIndex := length copied; outputLines := out |}
  = Ok {| sourceIndex := length sourceLines;
          outputLines := out ++ remaining |}.
Proof.
  revert copied out.
  induction remaining as [|l remaining IH]; intros copied out Hsrc.
  - rewrite Hsrc, !app_nil_r. reflexivity.
  - cbn [List.map]. rewrite hunkBody_cons, hunkLineStep_marker by done.
    rewrite (bool_decide_eq_true_2 (SP = SP)) by done.
    assert (actualLine sourceLines
              {| sourceIndex := length copied; outputLines := out |} = l)
      as ->.
    { unfold actualLine. cbn [sourceIndex]. rewrite Hsrc.
      by rewrite list_lookup_middle. }
    rewrite bool_decide_eq_true_2 by done. cbn [sourceIndex outputLines].
    specialize (IH (copied ++ [l]) (out ++ [l])).
    rewrite length_app in IH. cbn [length] in IH.
    replace (length copied + 1)%nat with (S (length copied)) in IH by lia.
    rewrite IH by by rewrite <- app_assoc.
    by rewrite <- app_assoc.
Qed.

Lemma contextDiff_lines header text :
  LF ∉ header → CR ∉ header →
  split LF (removeCR (contextDiff header text))
  = header :: List.map (cons SP) (split LF (removeCR text)).
Proof.
  intros Hlf Hcr. unfold contextDiff.
  assert (Forall (λ l, LF ∉ l)
            (List.map (cons SP) (split LF (removeCR text)))) as Hnolf.
  { apply Forall_forall. intros l (l0 & <- & Hl0)%list_elem_of_In%in_map_iff.
    pose proof (split_pieces LF (removeCR text)) as Hp.
    rewrite Forall_forall in Hp. apply list_elem_of_In, Hp in Hl0.
    set_solver. }
  rewrite removeCR_id.
  - rewrite split_app_sep by done. rewrite split_join; [done | | done].
    pose proof (split_nonempty LF (removeCR text)).
    by destruct (split LF (removeCR text)).
  - rewrite elem_of_app, elem_of_cons.
    intros [?|[?|Hj]]; [done | done |].
    apply elem_of_join in Hj as [?|(l & Hl & Hc)]; [done|].
    apply list_elem_of_In, in_map_iff in Hl as (l0 & <- & Hl0).
    apply elem_of_cons in Hc as [?|Hc]; [done|].
    apply list_elem_of_In in Hl0.
    apply (removeCR_no_CR text). by eapply split_piece_elem.
Qed.

(** C5, as the code has it. Applying to a text the diff made of a hunk
    header that starts at line 1 and of every line of the text as a
    context line returns the text with its carriage returns removed; that
    is the text itself when it holds none. *)
Theorem identity_diff (text header g1 : jsstring) :
  LF ∉ header → CR ∉ header →
  hunkHeaderPattern header = Some g1 → parseInt g1 = 1%Z →
  applyUnifiedDiff text (contextDiff header text) = Ok (removeCR text)
  ∧ (CR ∉ text →
     applyUnifiedDiff text (contextDiff header text) = Ok text).
Proof.
  intros Hlf Hcr Hhdr Hone.
  assert (applyUnifiedDiff text (contextDiff header text)
          = Ok (removeCR text)) as Happly.
  { rewrite applyUnifiedDiff_scan, contextDiff_lines by done.
    rewrite (scanPatch_header _ _ _ _ _ Hhdr), catchUp_closed, Hone.
    change (Z.of_nat (sourceIndex applyStart) <? Z.max (1 - 1) 0)%Z
      with false.
    cbv iota. unfold applyStart.
    rewrite (hunkBody_all_context _ [] _ []) by done.
    unfold copyRest. cbn [sourceIndex outputLines].
    rewrite drop_all, app_nil_l, app_nil_r. by rewrite join_split. }
  split; [done|]. intros Hnocr. by rewrite Happly, removeCR_id.
Qed.

Lemma identity_diff_witness :
  applyUnifiedDiff (join LF [lit "one"; lit ""; lit "two"])
    (contextDiff (lit "@@ -1,3 +1,3 @@")
                 (join LF [lit "one"; lit ""; lit "two"]))
  = Ok (join LF [lit "one"; lit ""; lit "two"]).
Proof.
  refine (proj1 (identity_diff (join LF [lit "one"; lit ""; lit "two"])
                   (lit "@@ -1,3 +1,3 @@") (lit "1") _ _ _ _)).
  - apply (bool_decide_unpack (LF ∉ lit "@@ -1,3 +1,3 @@")).
    vm_compute. exact I.
  - apply (bool_decide_unpack (CR ∉ lit "@@ -1,3 +1,3 @@")).
    vm_compute. exact I.
  - reflexivity.
  - reflexivity.
Defined.

(** C5, as stated, fails on a text with a carriage return: the text "a"
    followed by CR comes back as "a". *)
Lemma identity_diff_loses_carriage_return :
  let text := lit "a" ++ [CR] in
  applyUnifiedDiff text (contextDiff (lit "@@ -1 +1 @@") text) = Ok (lit "a")
  ∧ applyUnifiedDiff text (contextDiff (lit "@@ -1 +1 @@") text) ≠ Ok text.
Proof. split; by vm_compute. Qed.

(** C9, as the code has it. In the scanning state a line that does not
    begin with "@@ " is passed without touching the cursor or the output;
    so a diff none of whose lines, once its carriage returns are removed,
    begins with "@@ " returns the base text with its carriage returns
    removed. For a diff without carriage returns these are its own
    lines. *)
Theorem no_hunk_header_returns_base :
  (∀ sourceLines line rest st,
     startsWith (lit "@@ ") line = false →
     scanPatch sourceLines (line :: rest) st = scanPatch sourceLines rest st)
  ∧ (∀ baseText diffText,
       Forall (λ line, startsWith (lit "@@ ") line = false)
              (split LF (removeCR diffText)) →
       applyUnifiedDiff baseText diffText = Ok (removeCR baseText))
  ∧ (∀ baseText diffText,
       CR ∉ diffText →
       Forall (λ line, startsWith (lit "@@ ") line = false)
              (split LF diffText) →
       applyUnifiedDiff baseText diffText = Ok (removeCR baseText)).
Proof.
  assert (∀ baseText diffText,
       Forall (λ line, startsWith (lit "@@ ") line = false)
              (split LF (removeCR diffText)) →
       applyUnifiedDiff baseText diffText = Ok (removeCR baseText)) as Hscan.
  { intros baseText diffText Hall.
    rewrite applyUnifiedDiff_scan.
    rewrite <- (app_nil_r (split LF (removeCR diffText))).
    rewrite scanPatch_skip_all by done.
    cbn [scanPatch]. unfold copyRest.
    cbn [applyStart sourceIndex outputLines].
    rewrite drop_0, app_nil_l. by rewrite join_split. }
  split_and!; [apply scanPatch_skip | exact Hscan |].
  intros baseText diffText Hcr Hall. apply Hscan.
  by rewrite removeCR_id.
Qed.

Lemma no_hunk_header_returns_base_witness :
  applyUnifiedDiff (lit "one" ++ [CR; LF] ++ lit "two")
    (join LF [lit "diff --git a/f b/f"; lit "--- a/f"; lit "+++ b/f"])
  = Ok (join LF [lit "one"; lit "two"]).
Proof.
  refine (proj1 (proj2 no_hunk_header_returns_base)
            (lit "one" ++ [CR; LF] ++ lit "two")
            (join LF [lit "diff --git a/f b/f"; lit "--- a/f"; lit "+++ b/f"])
            _).
  repeat constructor.
Defined.

(** C9, as stated, fails: the lines are read after the carriage returns
    of the diff are removed. In the diff below no line of the text begins
    with "@@ ", the first one begins with a carriage return, yet the hunk
    is applied and the base text "a" comes back as "x". *)
Lemma carriage_return_hides_hunk_header :
  let diffText := CR :: join LF [lit "@@ -1 +1 @@"; lit "-a"; lit "+x"] in
  Forall (λ line, startsWith (lit "@@ ") line = false) (split LF diffText)
  ∧ applyUnifiedDiff (lit "a") diffText = Ok (lit "x")
  ∧ applyUnifiedDiff (lit "a") diffText ≠ Ok (removeCR (lit "a")).
Proof.
  split_and!; [repeat constructor | reflexivity | by vm_compute].
Qed.

(** ** The scenarios of the specification *)

Example scenario_B :
  applyUnifiedDiff (join LF [lit "old line"; []])
    (join LF [lit "@@ -1 +1 @@"; lit "-old line"; lit "+new line"; []])
  = Ok (join LF [lit "new line"; []]).
Proof. reflexivity. Qed.

Example scenario_C :
  let diffText :=
    join LF [lit "diff --git a/old-name.txt b/renamed/name.txt";
             lit "--- a/old-name.txt"; lit "+++ b/renamed/name.txt";
             lit "@@ -1,2 +1,2 @@"; lit "-alpha"; lit "+alpha-renamed";
             lit " beta"; []] in
  applyUnifiedDiff (join LF [lit "alpha"; lit "beta"; []]) diffText
  = Ok (join LF [lit "alpha-renamed"; lit "beta"; []])
  ∧ List.map (λ p, (oldPath p, newPath p)) (splitUnifiedDiffByFile diffText)
    = [(Some (lit "old-name.txt"), Some (lit "renamed/name.txt"))].
Proof. split; reflexivity. Qed.

Example target_allow_list :
  sanitizePatchTargets (join LF [lit "--- a/a.txt"; lit "+++ b/a.txt"])
    (ManyPaths [lit "a.txt"]) = Ok tt
  ∧ sanitizePatchTargets
      (join LF [lit "--- a/a.txt"; lit "+++ b/a.txt";
                lit "--- a/b.txt"; lit "+++ b/b.txt"])
      (ManyPaths [lit "a.txt"])
    = Throw (UnexpectedPath (lit "a/b.txt")).
Proof. split; by vm_compute. Qed.

Example deletion_to_null :
  let patch := join LF [lit "--- a/x.txt"; lit "+++ /dev/null"] in
  sanitizePatchTargets patch (OnePath (lit "x.txt")) = Ok tt
  ∧ List.map (λ p, (oldPath p, newPath p)) (splitUnifiedDiffByFile patch)
    = [(Some (lit "x.txt"), None)].
Proof. split; by vm_compute. Qed.

Example deletion_mismatch_throws :
  applyUnifiedDiff (join LF [lit "one"; lit "two"])
    (join LF [lit "@@ -1,2 +1,1 @@"; lit "-uno"; lit " two"])
  = Throw (DeletionMismatch (lit "uno") (lit "one")).
Proof. reflexivity. Qed.

(** Past the end of the source an empty context line and an empty
    deletion line both pass. *)
Example empty_lines_past_the_end :
  applyUnifiedDiff (lit "a")
    (join LF [lit "@@ -1 +1 @@"; lit " a"; lit " "; lit "-"])
  = Ok (join LF [lit "a"; []]).
Proof. reflexivity. Qed.

(** A segment without path headers is collected and then filtered out. *)
Example segment_without_paths_dropped :
  let patch := join LF [lit "diff --git a/bin b/bin";
                        lit "Binary files differ"] in
  length (collectedPatches patch) = 1%nat
  ∧ splitUnifiedDiffByFile patch = [].
Proof. split; reflexivity. Qed.

(** * Further properties of the patch module *)

(** ** Trimming *)

Section TrimFacts.

Implicit Types (s u v p : jsstring) (c : N).

Lemma elem_of_trimStart c s : c ∈ trimStart s → c ∈ s.
Proof.
  induction s as [|a s IH]; [done|]. simpl.
  destruct (isWhiteSpace a); [|done]. set_solver.
Qed.

Lemma elem_of_trim c s : c ∈ trim s → c ∈ s.
Proof.
  unfold trim, trimEnd. rewrite elem_of_reverse.
  intros H%elem_of_trimStart. rewrite elem_of_reverse in H.
  by apply elem_of_trimStart.
Qed.

Lemma length_trimStart s : (length (trimStart s) ≤ length s)%nat.
Proof.
  induction s as [|a s IH]; [done|]. simpl.
  destruct (isWhiteSpace a); simpl; lia.
Qed.

Lemma length_trimEnd s : (length (trimEnd s) ≤ length s)%nat.
Proof.
  unfold trimEnd. rewrite length_reverse.
  etrans; [apply length_trimStart|]. by rewrite length_reverse.
Qed.

Lemma trimStart_same_length s :
  length (trimStart s) = length s → trimStart s = s.
Proof.
  destruct s as [|a s]; [done|]. simpl.
  destruct (isWhiteSpace a); [|done].
  pose proof (length_trimStart s). simpl. lia.
Qed.

Lemma trimEnd_same_length s : length (trimEnd s) = length s → trimEnd s = s.
Proof.
  unfold trimEnd. rewrite length_reverse. intros H.
  rewrite trimStart_same_length by by rewrite length_reverse.
  apply reverse_involutive.
Qed.

(** A string that [trim] leaves alone is left alone at both ends. *)
Lemma trim_fixed s : trim s = s → trimStart s = s ∧ trimEnd s = s.
Proof.
  unfold trim. intros H.
  pose proof (length_trimEnd (trimStart s)) as H1.
  pose proof (length_trimStart s) as H2.
  rewrite H in H1.
  assert (trimStart s = s) as Hs by (apply trimStart_same_length; lia).
  split; [done|]. by rewrite Hs in H.
Qed.

Lemma trimStart_app u v :
  trimStart u ≠ [] → trimStart (u ++ v) = trimStart u ++ v.
Proof.
  induction u as [|a u IH]; [done|]. simpl.
  destruct (isWhiteSpace a); [exact IH | done].
Qed.

Lemma trimEnd_app u v : trimEnd v ≠ [] → trimEnd (u ++ v) = u ++ trimEnd v.
Proof.
  unfold trimEnd. intros Hv. rewrite reverse_app, trimStart_app.
  - by rewrite reverse_app, reverse_involutive.
  - intros E. apply Hv. by rewrite E.
Qed.

Lemma trim_prefixed a b p :
  isWhiteSpace a = false → p ≠ [] → trim p = p →
  trim (a :: b :: p) = a :: b :: p.
Proof.
  intros Ha Hp [_ Hend]%trim_fixed. unfold trim. simpl. rewrite Ha.
  change (a :: b :: p) with ([a; b] ++ p).
  rewrite trimEnd_app; by rewrite Hend.
Qed.

Lemma backslashToSlash_id s : 92 ∉ s → backslashToSlash s = s.
Proof.
  unfold backslashToSlash. induction s as [|a s IH]; [done|]. intros Hs.
  simpl. rewrite IH by set_solver.
  destruct (N.eqb_spec a 92) as [->|]; [set_solver | done].
Qed.

Lemma backslashToSlash_none s : 92 ∉ backslashToSlash s.
Proof.
  unfold backslashToSlash. induction s as [|a s IH]; simpl.
  - apply not_elem_of_nil.
  - apply not_elem_of_cons. split; [|done].
    destruct (N.eqb_spec a 92); [done | congruence].
Qed.

End TrimFacts.

(** ** normalizePatchPath *)

(** Every code unit of a normalized path is one of the input after its
    backslashes were replaced. *)
Lemma normalizePatchPath_elem (raw p : jsstring) (c : N) :
  normalizePatchPath (Some raw) = Some p → c ∈ p → c ∈ backslashToSlash raw.
Proof.
  unfold normalizePatchPath. destruct (isEmpty raw); [done|].
  set (trimmed := trim (stripDotSlash (backslashToSlash raw))).
  assert (c ∈ trimmed → c ∈ backslashToSlash raw) as Htrim.
  { intros H%elem_of_trim. unfold stripDotSlash, slice in H.
    destruct (startsWith (lit "./") (backslashToSlash raw)); [|done].
    by apply subseteq_drop in H. }
  destruct (isEmpty trimmed || bool_decide (trimmed = devNull)); [done|].
  destruct (startsWith (lit "a/") trimmed || startsWith (lit "b/") trimmed);
    intros [= <-]; [|done].
  intros H. change (c ∈ drop 2 trimmed) in H.
  apply subseteq_drop in H. by apply Htrim.
Qed.

(** A normalized path holds no backslash. *)
Theorem normalizePatchPath_no_backslash
    (rawPath : option jsstring) (p : jsstring) :
  normalizePatchPath rawPath = Some p → 92 ∉ p.
Proof.
  destruct rawPath as [raw|]; [|done]. intros Hnorm Hin.
  apply (backslashToSlash_none raw).
  by eapply normalizePatchPath_elem.
Qed.

Lemma normalizePatchPath_no_backslash_witness :
  normalizePatchPath (Some (lit "a\src\main.ts")) = Some (lit "src/main.ts")
  ∧ 92 ∉ lit "src/main.ts".
Proof.
  split; [reflexivity|].
  apply (normalizePatchPath_no_backslash (Some (lit "a\src\main.ts"))).
  reflexivity.
Defined.

Lemma normalizePatchPath_prefixed (a : N) (p : jsstring) :
  a = 97 ∨ a = 98 → p ≠ [] → trim p = p → 92 ∉ p →
  normalizePatchPath (Some (a :: 47 :: p)) = Some p.
Proof.
  intros Ha Hp Htrim Hbs. unfold normalizePatchPath. cbn [isEmpty].
  rewrite backslashToSlash_id by (destruct Ha as [-> | ->]; set_solver).
  assert (stripDotSlash (a :: 47 :: p) = a :: 47 :: p) as ->.
  { unfold stripDotSlash.
    rewrite (startsWith_head_ne 46 (lit "./")); [done | done |].
    destruct Ha as [-> | ->]; done. }
  rewrite trim_prefixed; [| destruct Ha as [-> | ->]; done | done | done].
  cbn [isEmpty orb].
  rewrite bool_decide_eq_false_2
    by (destruct Ha as [-> | ->]; vm_compute; congruence).
  destruct Ha as [-> | ->]; reflexivity.
Qed.

(** The two header forms of git, [a/p] and [b/p], normalize to [p] when
    [p] is not empty, has no white space at its ends and no backslash. *)
Theorem normalizePatchPath_git_prefix (p : jsstring) :
  p ≠ [] → trim p = p → 92 ∉ p →
  normalizePatchPath (Some (lit "a/" ++ p)) = Some p
  ∧ normalizePatchPath (Some (lit "b/" ++ p)) = Some p.
Proof.
  intros Hp Htrim Hbs.
  split; apply (normalizePatchPath_prefixed _ p); auto.
Qed.

Lemma normalizePatchPath_git_prefix_witness :
  normalizePatchPath (Some (lit "a/" ++ lit "src/x.ts")) = Some (lit "src/x.ts")
  ∧ normalizePatchPath (Some (lit "b/" ++ lit "src/x.ts"))
    = Some (lit "src/x.ts").
Proof.
  apply (normalizePatchPath_git_prefix (lit "src/x.ts")).
  - vm_compute. congruence.
  - reflexivity.
  - apply (bool_decide_unpack (92 ∉ lit "src/x.ts")). vm_compute. exact I.
Defined.

(** ** sanitizePatchTargets *)

Lemma split_app (sep : N) (s1 s2 : jsstring) :
  split sep (s1 ++ sep :: s2) = split sep s1 ++ split sep s2.
Proof.
  induction s1 as [|c s1 IH]; [apply split_cons_sep|].
  destruct (decide (c = sep)) as [->|Hc].
  - simpl app. by rewrite !split_cons_sep, IH.
  - simpl app. rewrite !split_cons_other, IH by done.
    pose proof (split_nonempty sep s1).
    by destruct (split sep s1).
Qed.

Lemma checkLines_app accepted lines1 lines2 :
  checkLines accepted (lines1 ++ lines2) =
  match checkLines accepted lines1 with
  | Throw e => Throw e
  | Ok _ => checkLines accepted lines2
  end.
Proof.
  induction lines1 as [|line lines1 IH]; [done|]. simpl.
  by destruct (checkLine accepted line).
Qed.

(** A patch made of two parts, one after the other on separate lines, is
    checked part by part: the first part decides when it throws, and the
    second part is checked otherwise. *)
Theorem sanitizePatchTargets_app
    (patch1 patch2 : jsstring) (targets : targetPaths) :
  sanitizePatchTargets (patch1 ++ LF :: patch2) targets =
  match sanitizePatchTargets patch1 targets with
  | Throw e => Throw e
  | Ok _ => sanitizePatchTargets patch2 targets
  end.
Proof.
  unfold sanitizePatchTargets. by rewrite split_app, checkLines_app.
Qed.

Lemma checkLines_ok accepted lines :
  checkLines accepted lines = Ok tt ↔
  ∀ line, line ∈ lines → checkLine accepted line = None.
Proof.
  induction lines as [|line lines IH]; simpl.
  - split; [intros _ l Hl; by apply elem_of_nil in Hl | done].
  - destruct (checkLine accepted line) eqn:E.
    + split; [done|]. intros H. specialize (H line). rewrite E in H.
      discriminate H. set_solver.
    + rewrite IH. split.
      * intros H l [->|Hl]%elem_of_cons; auto.
      * intros H l Hl. apply H. set_solver.
Qed.

Lemma offendingLine_anti (accepted accepted' : gset jsstring) line :
  accepted ⊆ accepted' →
  offendingLine accepted' line → offendingLine accepted line.
Proof.
  intros Hsub (Hhdr & Hne & Hdev & Hbad). split; [done|].
  split_and!; [done | done |].
  destruct Hbad as [Hbad|(n & Hn & Hn1 & Hn2)]; [by left|].
  right. exists n. set_solver.
Qed.

(** Allowing more targets never turns an accepted patch into a refused
    one. *)
Theorem sanitizePatchTargets_more_targets
    (patchText : jsstring) (targets targets' : targetPaths) :
  (∀ value, value ∈ targetList targets → value ∈ targetList targets') →
  sanitizePatchTargets patchText targets = Ok tt →
  sanitizePatchTargets patchText targets' = Ok tt.
Proof.
  intros Hsub. unfold sanitizePatchTargets. rewrite !checkLines_ok.
  intros Hok line Hline. apply checkLine_passes. intros Hoff.
  specialize (Hok line Hline). apply checkLine_passes in Hok. apply Hok.
  eapply offendingLine_anti; [|done].
  intros x. rewrite !elem_of_acceptedSet.
  intros (value & Hin & Hne & Hx). exists value. auto.
Qed.

Lemma sanitizePatchTargets_more_targets_witness :
  sanitizePatchTargets (join LF [lit "--- a/a.txt"; lit "+++ b/a.txt"])
    (ManyPaths [lit "b.txt"; lit "a.txt"]) = Ok tt.
Proof.
  apply (sanitizePatchTargets_more_targets _ (OnePath (lit "a.txt"))).
  - intros value ->%list_elem_of_singleton. simpl. set_solver.
  - reflexivity.
Defined.

Lemma takeUntil_absent (sep : N) (s : jsstring) :
  sep ∉ s → takeUntil sep s = s.
Proof.
  induction s as [|c s IH]; [done|]. intros Hs. simpl.
  destruct (N.eqb_spec c sep) as [->|]; [set_solver|].
  rewrite IH; [done | set_solver].
Qed.

(** The header line [prefix a/p] or [prefix b/p] of a declared target
    [p] passes the check. *)
Lemma checkLine_declared accepted (prefix : jsstring) (a : N) (p : jsstring) :
  prefix = lit "--- " ∨ prefix = lit "+++ " → a = 97 ∨ a = 98 →
  p ≠ [] → trim p = p → TAB ∉ p → 92 ∉ p →
  a :: 47 :: p ∈ accepted →
  checkLine accepted (prefix ++ a :: 47 :: p) = None.
Proof.
  intros Hprefix Ha Hp Htrim Htab Hbs Hin.
  apply checkLine_passes. intros (_ & _ & _ & Hbad).
  assert (pathPortion (prefix ++ a :: 47 :: p) = a :: 47 :: p) as Hpath.
  { unfold pathPortion.
    assert (drop 4 (prefix ++ a :: 47 :: p) = a :: 47 :: p) as ->
      by (destruct Hprefix as [-> | ->]; reflexivity).
    rewrite takeUntil_absent
      by (destruct Ha as [-> | ->]; set_solver).
    apply trim_prefixed; [destruct Ha as [-> | ->]; done | done | done]. }
  rewrite Hpath in Hbad.
  rewrite normalizePatchPath_prefixed in Hbad by done.
  destruct Hbad as [[[=]|[= ->]]|(n & _ & _ & Hn)]; done.
Qed.

(** A patch whose two path headers name a declared target [p] in git's
    [a/] and [b/] form, followed by lines that are no path headers, is
    accepted. The target must be in normal form already, not empty, and
    free of tabs and line feeds. *)
Theorem sanitizePatchTargets_declared_target
    (p : jsstring) (body : list jsstring) (targets : targetPaths) :
  p ∈ targetList targets →
  normalizePatchPath (Some p) = Some p →
  p ≠ [] → trim p = p → TAB ∉ p → LF ∉ p →
  Forall (λ line, isPathHeader line = false ∧ LF ∉ line) body →
  sanitizePatchTargets
    (join LF ((lit "--- a/" ++ p) :: (lit "+++ b/" ++ p) :: body)) targets
  = Ok tt.
Proof.
  intros Hin Hnorm Hp Htrim Htab Hlf Hbody.
  assert (92 ∉ p) as Hbs.
  { intros Hbad. apply (backslashToSlash_none p).
    by eapply normalizePatchPath_elem. }
  assert (∀ x, x ∈ acceptedForms p → x ∈ acceptedSet targets) as Hacc.
  { intros x Hx. apply elem_of_acceptedSet. exists p.
    split_and!; [done | done |]. by rewrite Hnorm. }
  assert (acceptedForms p = [p; lit "a/" ++ p; lit "b/" ++ p]) as Hforms.
  { unfold acceptedForms. rewrite Hnorm. by destruct p. }
  unfold sanitizePatchTargets. rewrite split_join.
  - apply checkLines_ok. intros line Hline.
    apply elem_of_cons in Hline as [->|Hline];
      [|apply elem_of_cons in Hline as [->|Hline]].
    + apply (checkLine_declared _ (lit "--- ") 97 p); auto.
      apply Hacc. rewrite Hforms. set_solver.
    + apply (checkLine_declared _ (lit "+++ ") 98 p); auto.
      apply Hacc. rewrite Hforms. set_solver.
    + rewrite Forall_forall in Hbody. apply Hbody in Hline as [Hhdr _].
      unfold checkLine. by rewrite Hhdr.
  - done.
  - repeat constructor.
    + set_solver.
    + set_solver.
    + eapply Forall_impl; [exact Hbody|]. by intros l [_ ?].
Qed.

Lemma sanitizePatchTargets_declared_target_witness :
  sanitizePatchTargets
    (join LF [lit "--- a/src/x.ts"; lit "+++ b/src/x.ts";
              lit "@@ -1 +1 @@"; lit "-old"; lit "+new"])
    (ManyPaths [lit "README.md"; lit "src/x.ts"])
  = Ok tt.
Proof.
  apply (sanitizePatchTargets_declared_target (lit "src/x.ts")
           [lit "@@ -1 +1 @@"; lit "-old"; lit "+new"]).
  - simpl. set_solver.
  - reflexivity.
  - vm_compute. congruence.
  - reflexivity.
  - apply (bool_decide_unpack (TAB ∉ lit "src/x.ts")). vm_compute. exact I.
  - apply (bool_decide_unpack (LF ∉ lit "src/x.ts")). vm_compute. exact I.
  - repeat constructor;
      solve [ reflexivity
            | apply (bool_decide_unpack (LF ∉ _)); vm_compute; exact I ].
Defined.

(** ** The hunk header pattern *)

#[local] Arguments isDigit : simpl never.

Lemma spanDigits_app (d r : jsstring) :
  Forall (λ c, isDigit c = true) d → startsNoDigit r →
  spanDigits (d ++ r) = (d, r).
Proof.
  induction 1 as [|c d Hc _ IH]; intros Hr; simpl.
  - destruct r as [|c r]; [done|]. simpl in *. by rewrite Hr.
  - rewrite Hc, IH by done. done.
Qed.

Lemma spanDigits_spec (s d r : jsstring) :
  spanDigits s = (d, r) →
  s = d ++ r ∧ Forall (λ c, isDigit c = true) d ∧ startsNoDigit r.
Proof.
  revert d r. induction s as [|c s IH]; intros d r; simpl.
  - intros [= <- <-]. by repeat constructor.
  - destruct (isDigit c) eqn:Hc.
    + destruct (spanDigits s) as [ds r'] eqn:E. intros [= <- <-].
      destruct (IH _ _ eq_refl) as (-> & Hds & Hr).
      split_and!; [done | by constructor | done].
    + intros [= <- <-]. split_and!; [done | constructor | exact Hc].
Qed.

Lemma digits1_app (d r : jsstring) :
  digitString d → startsNoDigit r → digits1 (d ++ r) = Some (d, r).
Proof.
  intros [Hne Hd] Hr. unfold digits1. rewrite spanDigits_app by done.
  by destruct d.
Qed.

Lemma digits1_spec (s d r : jsstring) :
  digits1 s = Some (d, r) → s = d ++ r ∧ digitString d ∧ startsNoDigit r.
Proof.
  unfold digits1. destruct (spanDigits s) as [ds r'] eqn:E.
  destruct (isEmpty ds) eqn:Hemp; [done|]. intros [= <- <-].
  apply spanDigits_spec in E as (-> & Hds & Hr).
  split_and!; [done | | done]. split; [|done]. by apply isEmpty_false.
Qed.

Lemma startsWith_split (p s : jsstring) :
  startsWith p s = true ↔ ∃ r, s = p ++ r.
Proof.
  split.
  - revert s. induction p as [|a p IH]; intros s; [by exists s|].
    destruct s as [|b s]; [done|]. simpl.
    intros [->%N.eqb_eq H]%andb_prop. destruct (IH _ H) as [r ->].
    by exists r.
  - intros [r ->]. induction p as [|a p IH]; [done|]. simpl.
    by rewrite N.eqb_refl.
Qed.

Lemma expect_spec (p s r : jsstring) : expect p s = Some r ↔ s = p ++ r.
Proof.
  unfold expect. split.
  - destruct (startsWith p s) eqn:E; [|done]. intros [= <-].
    apply startsWith_split in E as [r ->]. by rewrite drop_app_length.
  - intros ->. assert (startsWith p (p ++ r) = true) as ->
      by (apply startsWith_split; eauto).
    by rewrite drop_app_length.
Qed.

Lemma optCount_spec (s : jsstring) :
  ∃ c, countSuffix c ∧ s = c ++ optCount s.
Proof.
  unfold optCount. destruct s as [|a s]; [exists []; split; [by left|done]|].
  destruct (decide (a = 44)) as [->|Ha].
  - destruct (digits1 s) as [[d r]|] eqn:E.
    + apply digits1_spec in E as (-> & Hd & _).
      exists (44 :: d). split; [right; eauto | done].
    + exists []. split; [by left | done].
  - exists []. split; [by left|].
    destruct a as [|a]; [done|]. do 6 (destruct a as [a|a|]; try done).
Qed.

Lemma optCount_app (c r : jsstring) :
  countSuffix c → head r = Some SP → optCount (c ++ r) = r.
Proof.
  intros [->|(d & -> & Hd)] Hr.
  - destruct r as [|a r]; [done|]. by injection Hr as ->.
  - simpl. rewrite digits1_app; [done | done |].
    destruct r as [|a r]; [done|]. by injection Hr as ->.
Qed.

Lemma countSuffix_startsNoDigit (c r : jsstring) :
  countSuffix c → head r = Some SP → startsNoDigit (c ++ r).
Proof.
  intros [->|(d & -> & _)] Hr; [|done].
  destruct r as [|a r]; [done|]. by injection Hr as ->.
Qed.

(** [hunkHeaderPattern] accepts exactly the lines of the shape
    [@@ -digits[,digits] +digits[,digits] @@...], and what it hands back
    is the first run of digits. *)
Theorem hunkHeaderPattern_language (line g1 : jsstring) :
  hunkHeaderPattern line = Some g1 ↔
  ∃ c1 g3 c2 tail,
    line = lit "@@ -" ++ g1 ++ c1 ++ lit " +" ++ g3 ++ c2 ++ lit " @@" ++ tail
    ∧ digitString g1 ∧ countSuffix c1 ∧ digitString g3 ∧ countSuffix c2.
Proof.
  unfold hunkHeaderPattern. split.
  - destruct (expect (lit "@@ -") line) as [s1|] eqn:E1; [|done].
    apply expect_spec in E1 as ->. cbn [mbind option_bind].
    destruct (digits1 s1) as [[d1 s2]|] eqn:E2; [|done].
    apply digits1_spec in E2 as (-> & Hd1 & _). cbn [mbind option_bind].
    destruct (optCount_spec s2) as (c1 & Hc1 & Es2).
    destruct (expect (lit " +") (optCount s2)) as [s3|] eqn:E3; [|done].
    apply expect_spec in E3. cbn [mbind option_bind].
    destruct (digits1 s3) as [[d3 s4]|] eqn:E4; [|done].
    apply digits1_spec in E4 as (-> & Hd3 & _). cbn [mbind option_bind].
    destruct (optCount_spec s4) as (c2 & Hc2 & Es4).
    destruct (expect (lit " @@") (optCount s4)) as [tail|] eqn:E5; [|done].
    apply expect_spec in E5. cbn [mbind option_bind]. intros [= <-].
    exists c1, d3, c2, tail. split_and!; try done.
    rewrite Es2, E3, Es4, E5. done.
  - intros (c1 & g3 & c2 & tail & -> & Hg1 & Hc1 & Hg3 & Hc2).
    assert (expect (lit "@@ -")
              (lit "@@ -" ++ g1 ++ c1 ++ lit " +" ++ g3 ++ c2
               ++ lit " @@" ++ tail)
            = Some (g1 ++ c1 ++ lit " +" ++ g3 ++ c2 ++ lit " @@" ++ tail))
      as -> by by apply expect_spec.
    cbn [mbind option_bind].
    rewrite digits1_app;
      [| done | by apply countSuffix_startsNoDigit].
    cbn [mbind option_bind].
    rewrite optCount_app by done.
    assert (expect (lit " +") (lit " +" ++ g3 ++ c2 ++ lit " @@" ++ tail)
            = Some (g3 ++ c2 ++ lit " @@" ++ tail))
      as -> by by apply expect_spec.
    cbn [mbind option_bind].
    rewrite digits1_app;
      [| done | by apply countSuffix_startsNoDigit].
    cbn [mbind option_bind].
    rewrite optCount_app by done.
    assert (expect (lit " @@") (lit " @@" ++ tail) = Some tail)
      as -> by by apply expect_spec.
    done.
Qed.

(** ** splitUnifiedDiffByFile: the segments and the text *)

Lemma fromFirstHeader_snoc (done : list jsstring) (line : jsstring) :
  fromFirstHeader (done ++ [line]) =
  match fromFirstHeader done with
  | [] => if startsSegment line then [line] else []
  | _ :: _ => fromFirstHeader done ++ [line]
  end.
Proof.
  induction done as [|l done IH]; simpl; [done|].
  destruct (startsSegment l); [done | exact IH].
Qed.

Lemma fromFirstHeader_elem (lines : list jsstring) (line : jsstring) :
  line ∈ fromFirstHeader lines → line ∈ lines.
Proof.
  induction lines as [|l lines IH]; simpl; [done|].
  destruct (startsSegment l); set_solver.
Qed.

Lemma lastHeaderPath_snoc prefix (lines : list jsstring) (line : jsstring) :
  lastHeaderPath prefix (lines ++ [line]) =
  if startsWith prefix line then headerPath line
  else lastHeaderPath prefix lines.
Proof.
  unfold lastHeaderPath. rewrite List.filter_app. simpl.
  destruct (startsWith prefix line); [|by rewrite app_nil_r].
  by rewrite last_snoc.
Qed.

Lemma lastHeaderPath_single prefix (line : jsstring) :
  lastHeaderPath prefix [line] =
  if startsWith prefix line then headerPath line else None.
Proof. apply (lastHeaderPath_snoc prefix []). Qed.

Lemma lastHeaderPath_none prefix (lines : list jsstring) :
  Forall (λ line, startsWith prefix line = false) lines →
  lastHeaderPath prefix lines = None.
Proof.
  intros H. unfold lastHeaderPath.
  assert (List.filter (startsWith prefix) lines = []) as ->; [|done].
  induction H as [|l lines Hl _ IH]; simpl; [done|]. by rewrite Hl.
Qed.

Lemma startsWith_head (p s : jsstring) (a : N) :
  startsWith p s = true → head p = Some a → head s = Some a.
Proof.
  destruct p as [|a' p]; [done|]. destruct s as [|b s]; [done|]. simpl.
  intros [->%N.eqb_eq _]%andb_prop [= ->]. done.
Qed.

Lemma startsWith_other_head (p q s : jsstring) (a b : N) :
  startsWith p s = true → head p = Some a → head q = Some b → a ≠ b →
  startsWith q s = false.
Proof.
  intros Hp Ha Hb Hne. destruct (startsWith q s) eqn:Hq; [|done].
  pose proof (startsWith_head _ _ _ Hp Ha).
  pose proof (startsWith_head _ _ _ Hq Hb). congruence.
Qed.

Lemma splitInv_start : splitInv [] splitStart.
Proof. unfold splitInv. simpl. split_and!; done || constructor. Qed.

Lemma recordPaths_inv (line : jsstring) (st : splitState) :
  patches (recordPaths line st) = patches st
  ∧ buffer (recordPaths line st) = buffer st
  ∧ recording (recordPaths line st) = recording st
  ∧ rawOld (recordPaths line st)
    = (if startsWith (lit "--- ") line then headerPath line else rawOld st)
  ∧ rawNew (recordPaths line st)
    = (if startsWith (lit "+++ ") line then headerPath line else rawNew st).
Proof.
  unfold recordPaths.
  destruct (startsWith (lit "--- ") line) eqn:Hold.
  - rewrite (startsWith_other_head _ (lit "+++ ") _ 45 43 Hold); done.
  - destruct (startsWith (lit "+++ ") line); done.
Qed.

Lemma pushPatch_recording (done : list jsstring) (st : splitState) :
  splitInv done st → recording st = true →
  Forall wellFormedSegment (patches (pushPatch st))
  ∧ concat (segmentLines <$> patches (pushPatch st)) = fromFirstHeader done
  ∧ buffer (pushPatch st) = [] ∧ rawOld (pushPatch st) = None
  ∧ rawNew (pushPatch st) = None.
Proof.
  intros (Hlf & Hsegs & Hlines & Hrec) Hon. rewrite Hon in Hrec.
  destruct Hrec as ((first & Hfirst & Hstart) & Hold & Hnew).
  unfold pushPatch. rewrite Hon. cbn [negb patches buffer rawOld rawNew].
  assert (split LF (join LF (buffer st)) = buffer st) as Hsplit.
  { apply split_join; [|done]. by destruct (buffer st). }
  split_and!; try done.
  - apply Forall_app. split; [done|]. constructor; [|constructor].
    unfold wellFormedSegment, segmentLines.
    cbn [patchText rawOldPath rawNewPath oldPath newPath].
    rewrite Hsplit. split_and!; eauto.
  - rewrite fmap_app, concat_app. cbn [fmap list_fmap concat].
    unfold segmentLines at 2. cbn [patchText].
    by rewrite Hsplit, app_nil_r.
Qed.

Lemma fromFirstHeader_snoc_started (done : list jsstring) (line : jsstring) :
  fromFirstHeader done ≠ [] →
  fromFirstHeader (done ++ [line]) = fromFirstHeader done ++ [line].
Proof. rewrite fromFirstHeader_snoc. by destruct (fromFirstHeader done). Qed.

Lemma fromFirstHeader_snoc_fresh (done : list jsstring) (line : jsstring) :
  fromFirstHeader done = [] →
  fromFirstHeader (done ++ [line]) = if startsSegment line then [line] else [].
Proof. rewrite fromFirstHeader_snoc. by intros ->. Qed.

Lemma splitInv_started (done : list jsstring) (st : splitState) :
  splitInv done st → recording st = true → fromFirstHeader done ≠ [].
Proof.
  intros (_ & _ & Hl & Hrec) Hon. rewrite Hon in Hrec.
  destruct Hrec as ((first & Hfirst & _) & _). rewrite <- Hl.
  destruct (buffer st); [done|].
  by destruct (concat (segmentLines <$> patches st)).
Qed.

Lemma splitInv_fresh (done : list jsstring) (st : splitState) :
  splitInv done st → recording st = false →
  fromFirstHeader done = [] ∧ buffer st = [] ∧ patches st = []
  ∧ rawOld st = None ∧ rawNew st = None.
Proof.
  intros (_ & _ & Hl & Hrec) Hon. rewrite Hon in Hrec.
  destruct Hrec as (Hbuf & Hpatches & Hro & Hrn).
  rewrite Hpatches, Hbuf in Hl. done.
Qed.

(** One pass of the loop keeps the invariant. *)
Lemma splitLine_inv (done : list jsstring) (st : splitState) (line : jsstring) :
  splitInv done st → LF ∉ line → splitInv (done ++ [line]) (splitLine st line).
Proof.
  intros Hinv Hline. unfold splitLine.
  destruct (startsWith (lit "diff --git ") line) eqn:Hgit.
  - assert (startsSegment line = true) as Hstart
      by (unfold startsSegment; by rewrite Hgit).
    assert (startsWith (lit "--- ") line = false) as Hold
      by by apply (startsWith_other_head _ _ _ 100 45 Hgit).
    assert (startsWith (lit "+++ ") line = false) as Hnew
      by by apply (startsWith_other_head _ _ _ 100 43 Hgit).
    assert (Forall (λ l, LF ∉ l) [line]) as Hone by by repeat constructor.
    destruct (recording st) eqn:Hon.
    + destruct (pushPatch_recording _ _ Hinv Hon)
        as (Hsegs & Hlines & _ & -> & ->).
      pose proof (splitInv_started _ _ Hinv Hon) as Hne.
      unfold splitInv. cbn [patches buffer rawOld rawNew recording].
      rewrite !lastHeaderPath_single, Hold, Hnew, Hlines.
      rewrite fromFirstHeader_snoc_started by done.
      split_and!; eauto.
    + destruct (splitInv_fresh _ _ Hinv Hon)
        as (Hnone & Hbuf & Hpatches & Hro & Hrn).
      unfold pushPatch. rewrite Hon.
      unfold splitInv. cbn [negb patches buffer rawOld rawNew recording].
      rewrite !lastHeaderPath_single, Hold, Hnew, Hpatches.
      rewrite fromFirstHeader_snoc_fresh, Hstart by done.
      split_and!; eauto.
  - destruct (recording st) eqn:Hon; cbn [negb].
    + destruct (recordPaths_inv line
        {| patches := patches st; buffer := buffer st ++ [line];
           rawOld := rawOld st; rawNew := rawNew st;
           recording := true |}) as (Hp & Hb & Hr & Ho & Hn).
      cbn [patches buffer rawOld rawNew recording] in *.
      pose proof (splitInv_started _ _ Hinv Hon) as Hne.
      destruct Hinv as (Hlf & Hsegs & Hl & Hrec). rewrite Hon in Hrec.
      destruct Hrec as ((first & Hfirst & Hstart) & Hold & Hnew).
      unfold splitInv. rewrite Hp, Hb, Hr, Ho, Hn.
      rewrite !lastHeaderPath_snoc.
      rewrite fromFirstHeader_snoc_started, <- Hl, app_assoc by done.
      rewrite <- Hold, <- Hnew.
      split_and!; try done.
      * apply Forall_app. by repeat constructor.
      * exists first. split; [|done]. by destruct (buffer st).
    + destruct (splitInv_fresh _ _ Hinv Hon)
        as (Hnone & Hbuf & Hpatches & Hro & Hrn).
      destruct (startsWith (lit "--- ") line || startsWith (lit "+++ ") line
                || startsWith (lit "@@ ") line) eqn:Hhdr.
      * destruct (recordPaths_inv line
          {| patches := patches st; buffer := [line];
             rawOld := rawOld st; rawNew := rawNew st;
             recording := true |}) as (Hp & Hb & Hr & Ho & Hn).
        cbn [patches buffer rawOld rawNew recording] in *.
        assert (startsSegment line = true) as Hstart.
        { unfold startsSegment. rewrite Hgit. exact Hhdr. }
        unfold splitInv. rewrite Hp, Hb, Hr, Ho, Hn.
        rewrite !lastHeaderPath_single, Hpatches, Hro, Hrn.
        rewrite fromFirstHeader_snoc_fresh, Hstart by done.
        split_and!; eauto.
      * assert (startsSegment line = false) as Hstart.
        { unfold startsSegment. rewrite Hgit. exact Hhdr. }
        unfold splitInv. rewrite Hon, Hbuf, Hpatches, Hro, Hrn.
        rewrite fromFirstHeader_snoc_fresh, Hstart by done.
        split_and!; done || constructor.
Qed.

Lemma fold_splitLine_inv (done lines : list jsstring) (st : splitState) :
  splitInv done st → Forall (λ l, LF ∉ l) lines →
  splitInv (done ++ lines) (fold_left splitLine lines st).
Proof.
  intros Hinv Hlines. revert done st Hinv.
  induction Hlines as [|line lines Hline _ IH]; intros done st Hinv.
  - by rewrite app_nil_r.
  - simpl. rewrite (assoc_L _ done [line] lines : done ++ line :: lines = _).
    apply IH. by apply splitLine_inv.
Qed.

Lemma collectedPatches_inv (patchText : jsstring) :
  Forall wellFormedSegment (collectedPatches patchText)
  ∧ concat (segmentLines <$> collectedPatches patchText)
    = fromFirstHeader (split LF (removeCR patchText)).
Proof.
  unfold collectedPatches.
  pose proof (fold_splitLine_inv [] (split LF (removeCR patchText)) splitStart
                splitInv_start (split_pieces _ _)) as Hinv.
  rewrite app_nil_l in Hinv.
  destruct (recording (fold_left splitLine (split LF (removeCR patchText))
                         splitStart)) eqn:Hon.
  - destruct (pushPatch_recording _ _ Hinv Hon) as (? & ? & _). done.
  - destruct Hinv as (_ & Hsegs & Hl & Hrec). rewrite Hon in Hrec.
    destruct Hrec as (Hbuf & Hpatches & _).
    unfold pushPatch. rewrite Hon. cbn [negb patches].
    rewrite Hbuf, app_nil_r in Hl. done.
Qed.

(** The segments collected before the last filter hold, line by line and
    in order, exactly the patch (without carriage returns) from its first
    line that starts with [diff --git ], [--- ], [+++ ] or [@@ ]. *)
Theorem collectedPatches_lines (patchText : jsstring) :
  concat (segmentLines <$> collectedPatches patchText)
  = fromFirstHeader (split LF (removeCR patchText)).
Proof. apply collectedPatches_inv. Qed.

Lemma splitUnifiedDiffByFile_raw_lines (patchText : jsstring) :
  ∀ p, p ∈ splitUnifiedDiffByFile patchText →
    rawOldPath p = lastHeaderPath (lit "--- ") (segmentLines p)
    ∧ rawNewPath p = lastHeaderPath (lit "+++ ") (segmentLines p)
    ∧ oldPath p = normalizePatchPath (rawOldPath p)
    ∧ newPath p = normalizePatchPath (rawNewPath p).
Proof.
  intros p Hp.
  apply list_elem_of_In, filter_In in Hp as [Hp%list_elem_of_In _].
  destruct (collectedPatches_inv patchText) as [Hsegs _].
  rewrite Forall_forall in Hsegs. by destruct (Hsegs p Hp) as (_ & ?).
Qed.

(** Every returned segment agrees with its own text: the text opens with
    a line that starts a segment, the raw paths are the path portions of
    its last [--- ] and [+++ ] lines, and the paths are their normal
    forms. *)
Theorem splitUnifiedDiffByFile_well_formed (patchText : jsstring) :
  Forall wellFormedSegment (splitUnifiedDiffByFile patchText).
Proof.
  unfold splitUnifiedDiffByFile.
  destruct (collectedPatches_inv patchText) as [Hsegs _].
  rewrite Forall_forall in Hsegs. apply Forall_forall.
  intros p Hp. apply Hsegs. apply list_elem_of_In.
  apply list_elem_of_In, filter_In in Hp as [Hp _]. done.
Qed.

Lemma elem_of_concat_fmap {A B} (f : A → list B) (xs : list A) (x : A) (y : B) :
  x ∈ xs → y ∈ f x → y ∈ concat (f <$> xs).
Proof.
  intros Hx Hy. induction xs as [|x' xs IH]; [by apply elem_of_nil in Hx|].
  simpl. apply elem_of_app.
  apply elem_of_cons in Hx as [->|Hx]; [by left | right; auto].
Qed.

(** A patch without a line that starts with [--- ] or [+++ ] yields no
    segment at all. *)
Theorem splitUnifiedDiffByFile_no_path_headers (patchText : jsstring) :
  Forall (λ line, isPathHeader line = false)
         (split LF (removeCR patchText)) →
  splitUnifiedDiffByFile patchText = [].
Proof.
  intros Hnone. unfold splitUnifiedDiffByFile.
  destruct (collectedPatches_inv patchText) as [Hsegs Hlines].
  rewrite Forall_forall in Hsegs. rewrite Forall_forall in Hnone.
  assert (∀ p, p ∈ collectedPatches patchText → hasRawPath p = false) as Hno.
  { intros p Hp.
    assert (Forall (λ line, isPathHeader line = false) (segmentLines p))
      as Hp'.
    { apply Forall_forall. intros line Hline. apply Hnone.
      apply (fromFirstHeader_elem _ line). rewrite <- Hlines.
      by eapply elem_of_concat_fmap. }
    destruct (Hsegs p Hp) as (_ & Hold & Hnew & _).
    unfold hasRawPath. rewrite Hold, Hnew.
    rewrite !lastHeaderPath_none; [done | |].
    - eapply Forall_impl; [exact Hp'|]. unfold isPathHeader.
      by intros l [_ ?]%orb_false_elim.
    - eapply Forall_impl; [exact Hp'|]. unfold isPathHeader.
      by intros l [? _]%orb_false_elim. }
  clear - Hno.
  induction (collectedPatches patchText) as [|p ps IH]; [done|]. simpl.
  rewrite Hno by set_solver. apply IH. intros. apply Hno. set_solver.
Qed.

Lemma splitUnifiedDiffByFile_no_path_headers_witness :
  splitUnifiedDiffByFile
    (join LF [lit "diff --git a/img.png b/img.png";
              lit "index 1..2 100644"; lit "Binary files differ"]) = [].
Proof.
  apply splitUnifiedDiffByFile_no_path_headers. repeat constructor.
Defined.

(** ** applyUnifiedDiff: the other hunk lines *)

Section HunkLines.

Variable sourceLines : list jsstring.

Implicit Types (st : applyState) (rest : list jsstring).

Lemma isHeaderLine_minus (payload : jsstring) :
  isHeaderLine (45 :: payload) = startsWith (lit "-- ") payload.
Proof.
  unfold isHeaderLine.
  rewrite (startsWith_head_ne 64 (lit "@@ ")),
    (startsWith_head_ne 43 (lit "+++ ")) by done.
  by rewrite orb_false_r.
Qed.

Lemma isHeaderLine_plus (payload : jsstring) :
  isHeaderLine (43 :: payload) = startsWith (lit "++ ") payload.
Proof.
  unfold isHeaderLine.
  by rewrite (startsWith_head_ne 64 (lit "@@ ")),
    (startsWith_head_ne 45 (lit "--- ")) by done.
Qed.

Lemma isHeaderLine_nonempty (hunkLine : jsstring) :
  isHeaderLine hunkLine = true → isEmpty hunkLine = false.
Proof. by destruct hunkLine. Qed.

Lemma hunkLineStep_header hunkLine st :
  isHeaderLine hunkLine = true → hunkLineStep sourceLines hunkLine st = Break.
Proof.
  intros H. unfold hunkLineStep.
  by rewrite (isHeaderLine_nonempty _ H), H.
Qed.

Lemma hunkLineStep_delete payload st :
  startsWith (lit "-- ") payload = false →
  hunkLineStep sourceLines (45 :: payload) st
  = (if bool_decide (payload = actualLine sourceLines st)
     then Continue {| sourceIndex := S (sourceIndex st);
                      outputLines := outputLines st |}
     else Raise (DeletionMismatch payload (actualLine sourceLines st))).
Proof.
  intros H. rewrite hunkLineStep_marker;
    [| done | done | by rewrite isHeaderLine_minus].
  rewrite (bool_decide_eq_false_2 (45 = SP)) by done.
  by rewrite (bool_decide_eq_true_2 (45 = 45)).
Qed.

Lemma hunkLineStep_insert payload st :
  startsWith (lit "++ ") payload = false →
  hunkLineStep sourceLines (43 :: payload) st
  = Continue {| sourceIndex := sourceIndex st;
                outputLines := outputLines st ++ [payload] |}.
Proof.
  intros H. rewrite hunkLineStep_marker;
    [| done | done | by rewrite isHeaderLine_plus].
  rewrite (bool_decide_eq_false_2 (43 = SP)) by done.
  rewrite (bool_decide_eq_false_2 (43 = 45)) by done.
  by rewrite (bool_decide_eq_true_2 (43 = 43)).
Qed.

(** A hunk line that starts with [-] (and is not a [--- ] header) must
    repeat the source line at the cursor: then the cursor moves on and
    the output stays as it is, so the line is gone; otherwise the hunk
    body ends in the "Deletion mismatch" error. *)
Theorem deletion_line_checked payload rest st :
  startsWith (lit "-- ") payload = false →
  hunkBody sourceLines ((45 :: payload) :: rest) st
  = (if bool_decide (payload = actualLine sourceLines st)
     then hunkBody sourceLines rest
            {| sourceIndex := S (sourceIndex st);
               outputLines := outputLines st |}
     else Throw (DeletionMismatch payload (actualLine sourceLines st))).
Proof.
  intros H. rewrite hunkBody_cons, hunkLineStep_delete by done.
  by case_bool_decide.
Qed.

(** A hunk line that starts with [+] (and is not a [+++ ] header) adds
    its payload to the output; the source is neither read nor
    consumed. *)
Theorem addition_line_appended payload rest st :
  startsWith (lit "++ ") payload = false →
  hunkBody sourceLines ((43 :: payload) :: rest) st
  = hunkBody sourceLines rest
      {| sourceIndex := sourceIndex st;
         outputLines := outputLines st ++ [payload] |}.
Proof.
  intros H. by rewrite hunkBody_cons, hunkLineStep_insert.
Qed.

(** A line that starts with [--- ] or [+++ ] inside a hunk body is never
    applied as a deletion or an addition: it ends the hunk and is passed
    over, with the cursor and the output untouched. *)
Theorem path_header_ends_hunk hunkLine rest st :
  isPathHeader hunkLine = true →
  hunkBody sourceLines (hunkLine :: rest) st = scanPatch sourceLines rest st.
Proof.
  unfold isPathHeader. intros H.
  assert (isHeaderLine hunkLine = true) as Hhdr.
  { unfold isHeaderLine. rewrite <- orb_assoc, H. apply orb_true_r. }
  rewrite hunkBody_cons, hunkLineStep_header by done.
  apply scanPatch_skip.
  apply orb_true_iff in H as [H|H].
  - by apply (startsWith_other_head _ _ _ 45 64 H).
  - by apply (startsWith_other_head _ _ _ 43 64 H).
Qed.

(** A line that starts with [\ No newline] changes nothing. *)
Theorem no_newline_marker_ignored (tail : jsstring) rest st :
  hunkBody sourceLines ((lit "\ No newline" ++ tail) :: rest) st
  = hunkBody sourceLines rest st.
Proof.
  rewrite hunkBody_cons. unfold hunkLineStep.
  assert (startsWith (lit "\ No newline") (lit "\ No newline" ++ tail) = true)
    as -> by (apply startsWith_split; eauto).
  reflexivity.
Qed.

(** A hunk line that opens with anything but a space, [-], [+], [@],
    a backslash or white space ends the hunk body in the "Unsupported
    patch line" error. *)
Theorem unsupported_line_throws (c : N) (content : jsstring) rest st :
  c ≠ SP → c ≠ 45 → c ≠ 43 → c ≠ 64 → c ≠ 92 → isWhiteSpace c = false →
  hunkBody sourceLines ((c :: content) :: rest) st
  = Throw (UnsupportedPatchLine (c :: content)).
Proof.
  intros Hsp Hminus Hplus Hat Hbs Hws.
  rewrite hunkBody_cons, hunkLineStep_marker by naive_solver.
  rewrite !bool_decide_eq_false_2 by done. by rewrite Hws.
Qed.

End HunkLines.

Lemma deletion_line_checked_witness :
  hunkBody [lit "one"; lit "two"] [lit "-one"] applyStart
  = Ok {| sourceIndex := 1; outputLines := [] |}.
Proof.
  apply (deletion_line_checked [lit "one"; lit "two"] (lit "one") []
           applyStart).
  reflexivity.
Defined.

Lemma addition_line_appended_witness :
  hunkBody [lit "one"] [lit "+zero"] applyStart
  = Ok {| sourceIndex := 0; outputLines := [lit "zero"] |}.
Proof.
  apply (addition_line_appended [lit "one"] (lit "zero") [] applyStart).
  reflexivity.
Defined.

Lemma path_header_ends_hunk_witness :
  hunkBody [lit "-- note"; lit "x"] [lit "--- note"; lit " x"] applyStart
  = Ok applyStart.
Proof.
  apply (path_header_ends_hunk [lit "-- note"; lit "x"] (lit "--- note")
           [lit " x"] applyStart).
  reflexivity.
Defined.

Lemma unsupported_line_throws_witness :
  hunkBody [lit "one"] [lit "index 1..2"] applyStart
  = Throw (UnsupportedPatchLine (lit "index 1..2")).
Proof.
  apply (unsupported_line_throws [lit "one"] 105 (lit "ndex 1..2") []
           applyStart); done.
Defined.

(** The lines of the diff are read after its carriage returns are
    removed. The first of these lines that starts with [@@ ], when it
    does not match the hunk header pattern, makes the call throw "Invalid
    hunk header", naming the line as read. *)
Theorem invalid_hunk_header_throws
    (baseText diffText : jsstring) (before : list jsstring)
    (line : jsstring) (rest : list jsstring) :
  split LF (removeCR diffText) = before ++ line :: rest →
  Forall (λ l, startsWith (lit "@@ ") l = false) before →
  startsWith (lit "@@ ") line = true →
  hunkHeaderPattern line = None →
  applyUnifiedDiff baseText diffText = Throw (InvalidHunkHeader line)
  ∧ errorMessage (InvalidHunkHeader line)
    = lit "Invalid hunk header: " ++ line.
Proof.
  intros Hdiff Hbefore Hat Hnone. split; [|done].
  rewrite applyUnifiedDiff_scan, Hdiff, scanPatch_skip_all by done.
  rewrite scanPatch_cons, Hat, Hnone.
  by destruct line.
Qed.

Lemma invalid_hunk_header_throws_witness :
  applyUnifiedDiff (lit "a")
    (join LF [lit "--- a/f"; lit "@@ -x +1 @@"; lit " a"])
  = Throw (InvalidHunkHeader (lit "@@ -x +1 @@")).
Proof.
  refine (proj1 (invalid_hunk_header_throws (lit "a") _ [lit "--- a/f"]
                   (lit "@@ -x +1 @@") [lit " a"] _ _ _ _));
    try reflexivity.
  repeat constructor.
Defined.

(** ** applyUnifiedDiff: applying a sequence of hunks *)

Section ApplyHunks.

Variable sourceLines : list jsstring.

Lemma hunkBody_script (ops : list editOp) (rest copied tail out : list jsstring) :
  sourceLines = copied ++ oldSide ops ++ tail →
  Forall (λ op, readAsBody op = true) ops →
  (rest = [] ∨ ∃ h r, rest = h :: r ∧ isHeaderLine h = true) →
  hunkBody sourceLines (List.map renderOp ops ++ rest)
    {| sourceIndex := length copied; outputLines := out |}
  = scanPatch sourceLines rest
      {| sourceIndex := length copied + length (oldSide ops);
         outputLines := out ++ newSide ops |}.
Proof.
  intros Hsrc Hops Hrest. revert copied out Hsrc.
  induction Hops as [|op ops Hop _ IH]; intros copied out Hsrc.
  - cbn [List.map app oldSide newSide length].
    rewrite Nat.add_0_r, app_nil_r.
    destruct Hrest as [->|(h & r & -> & Hh)]; [done|].
    by rewrite hunkBody_cons, hunkLineStep_header.
  - assert (∀ l rem, sourceLines = copied ++ l :: rem →
        actualLine sourceLines
          {| sourceIndex := length copied; outputLines := out |} = l)
      as Hactual.
    { intros l rem ->. unfold actualLine. cbn [sourceIndex].
      by rewrite list_lookup_middle. }
    assert (∀ l, length (copied ++ [l]) = S (length copied)) as Hlen
      by (intros l; rewrite length_app; simpl; lia).
    destruct op as [l|l|l]; cbn [List.map app renderOp oldSide newSide].
    + rewrite hunkBody_cons, hunkLineStep_marker by done.
      rewrite (bool_decide_eq_true_2 (SP = SP)) by done.
      rewrite (Hactual l (oldSide ops ++ tail)) by done.
      rewrite bool_decide_eq_true_2 by done. cbn [sourceIndex outputLines].
      rewrite <- (Hlen l), IH by by rewrite <- app_assoc.
      rewrite (Hlen l), <- app_assoc. cbn [length]. f_equal. f_equal. lia.
    + cbn [readAsBody] in Hop. apply negb_true_iff in Hop.
      rewrite hunkBody_cons, hunkLineStep_delete by done.
      rewrite (Hactual l (oldSide ops ++ tail)) by done.
      rewrite bool_decide_eq_true_2 by done. cbn [sourceIndex outputLines].
      rewrite <- (Hlen l), IH by by rewrite <- app_assoc.
      rewrite (Hlen l). cbn [length]. f_equal. f_equal. lia.
    + cbn [readAsBody] in Hop. apply negb_true_iff in Hop.
      rewrite hunkBody_cons, hunkLineStep_insert by done.
      cbn [sourceIndex outputLines].
      rewrite IH by done. by rewrite <- app_assoc.
Qed.

Lemma catchUp_gap (startOld : Z) (copied gap tail out : list jsstring) :
  sourceLines = copied ++ gap ++ tail →
  startOld = Z.of_nat (length copied + length gap) →
  catchUp sourceLines startOld
    {| sourceIndex := length copied; outputLines := out |}
  = Ok {| sourceIndex := length copied + length gap;
          outputLines := out ++ gap |}.
Proof.
  intros Hsrc ->. rewrite catchUp_closed. cbn [sourceIndex outputLines].
  destruct (Z.ltb_spec (Z.of_nat (length copied))
              (Z.of_nat (length copied + length gap))) as [Hlt|Hge].
  - destruct (Z.leb_spec (Z.of_nat (length copied + length gap))
                (Z.of_nat (length sourceLines))) as [_|Hbad].
    + rewrite Nat2Z.id.
      replace (length copied + length gap - length copied)%nat
        with (length gap) by lia.
      rewrite Hsrc, drop_app_length, take_app_length. done.
    + rewrite Hsrc, !length_app in Hbad. lia.
  - assert (gap = []) as -> by (destruct gap; [done | simpl in Hge; lia]).
    by rewrite Nat.add_0_r, app_nil_r.
Qed.

Lemma hunkHeaderPattern_isHeaderLine (line g1 : jsstring) :
  hunkHeaderPattern line = Some g1 → isHeaderLine line = true.
Proof.
  intros H%hunkHeaderPattern_startsWith.
  apply orb_false_elim in H as [_ H%negb_false_iff].
  unfold isHeaderLine. by rewrite H.
Qed.

Lemma scanPatch_hunks (hs : list hunk) (copied tail out : list jsstring) :
  sourceLines = copied ++ concat (hunkOld <$> hs) ++ tail →
  hunksFrom (length copied) hs →
  scanPatch sourceLines (concat (hunkLines <$> hs))
    {| sourceIndex := length copied; outputLines := out |}
  = Ok {| sourceIndex := length copied + length (concat (hunkOld <$> hs));
          outputLines := out ++ concat (hunkNew <$> hs) |}.
Proof.
  revert copied out.
  induction hs as [|h hs IH]; intros copied out Hsrc Hfrom.
  - simpl. by rewrite Nat.add_0_r, app_nil_r.
  - destruct Hfrom as ((g1 & Hhdr & Hstart) & Hops & Hfrom).
    cbn [fmap list_fmap concat] in *. unfold hunkLines at 1.
    unfold hunkOld at 1 in Hsrc. rewrite <- !app_assoc in Hsrc.
    cbn [app]. rewrite (scanPatch_header _ _ _ _ _ Hhdr).
    rewrite (catchUp_gap _ copied (hGap h)
               (oldSide (hOps h) ++ concat (hunkOld <$> hs) ++ tail) out)
      by done.
    rewrite <- length_app.
    rewrite (hunkBody_script (hOps h) _ (copied ++ hGap h)
               (concat (hunkOld <$> hs) ++ tail)); [| | done |].
    + assert (length copied + length (hunkOld h)
              = length ((copied ++ hGap h) ++ oldSide (hOps h)))%nat as Hpos
        by (unfold hunkOld; rewrite !length_app; lia).
      rewrite Hpos in Hfrom. rewrite <- length_app.
      rewrite IH; [| by rewrite <- !app_assoc | done].
      unfold hunkOld at 2, hunkNew at 2. rewrite !length_app.
      rewrite <- !app_assoc. f_equal. f_equal. lia.
    + by rewrite <- app_assoc.
    + destruct hs as [|h' hs']; [by left|]. right.
      destruct Hfrom as ((g1' & Hhdr' & _) & _).
      cbn [fmap list_fmap concat]. unfold hunkLines at 1. cbn [app].
      eexists _, _. split; [done|].
      by eapply hunkHeaderPattern_isHeaderLine.
Qed.

End ApplyHunks.

Lemma removeCR_join_lines (ls : list jsstring) :
  Forall oneLine ls → removeCR (join LF ls) = join LF ls.
Proof.
  intros Hls. apply removeCR_id.
  intros [?|(l & Hl & Hc)]%elem_of_join; [done|].
  rewrite Forall_forall in Hls. by destruct (Hls l Hl).
Qed.

(** The lines the code reads from a text that was joined from lines. *)
Lemma lines_of_join (ls : list jsstring) :
  Forall oneLine ls → ls ≠ [] → split LF (removeCR (join LF ls)) = ls.
Proof.
  intros Hls Hne. rewrite removeCR_join_lines by done.
  apply split_join; [done|].
  eapply Forall_impl; [exact Hls|]. by intros l [? _].
Qed.

Lemma oneLine_renderOp (op : editOp) :
  oneLine (opLine op) → oneLine (renderOp op).
Proof.
  intros [Hlf Hcr]. destruct op as [l|l|l]; simpl in *;
    split; apply not_elem_of_cons; done.
Qed.

Lemma oneLine_hunkLines (hs : list hunk) :
  Forall oneLineHunk hs → Forall oneLine (concat (hunkLines <$> hs)).
Proof.
  induction 1 as [|h hs (Hhdr & _ & Hops) _ IH]; [constructor|].
  cbn [fmap list_fmap concat]. apply Forall_app. split; [|done].
  unfold hunkLines. constructor; [done|].
  apply Forall_forall. intros l (op & <- & Hop)%list_elem_of_In%in_map_iff.
  apply oneLine_renderOp. rewrite Forall_forall in Hops.
  by apply Hops, list_elem_of_In.
Qed.

Lemma oneLine_hunk_side (side : hunk → list jsstring) (hs : list hunk) :
  (∀ h, oneLineHunk h → Forall oneLine (side h)) →
  Forall oneLineHunk hs → Forall oneLine (concat (side <$> hs)).
Proof.
  intros Hside. induction 1 as [|h hs Hh _ IH]; [constructor|].
  cbn [fmap list_fmap concat]. apply Forall_app. auto.
Qed.

Lemma oneLine_oldSide (ops : list editOp) :
  Forall (λ op, oneLine (opLine op)) ops → Forall oneLine (oldSide ops).
Proof.
  induction 1 as [|op ops Hop _ IH]; [constructor|].
  destruct op; simpl in *; auto.
Qed.

Lemma oneLine_hunkOld (h : hunk) :
  oneLineHunk h → Forall oneLine (hunkOld h).
Proof.
  intros (_ & Hgap & Hops). apply Forall_app. split; [done|].
  by apply oneLine_oldSide.
Qed.

(** Applying a sequence of hunks. When the source is the hunks' old
    sides, each behind its gap of unchanged lines, followed by an
    unchanged tail, and every header's old start is one more than the
    number of source lines before its hunk body, the result is the new
    sides behind the same gaps, followed by the same tail. The lines hold
    no line feed or carriage return, and no deleted line starts with
    [-- ] and no inserted one with [++ ]. *)
Theorem hunks_applied (hs : list hunk) (tail : list jsstring) :
  hunksFrom 0 hs → Forall oneLineHunk hs → Forall oneLine tail →
  concat (hunkOld <$> hs) ++ tail ≠ [] →
  applyUnifiedDiff (join LF (concat (hunkOld <$> hs) ++ tail))
                   (join LF (concat (hunkLines <$> hs)))
  = Ok (join LF (concat (hunkNew <$> hs) ++ tail)).
Proof.
  intros Hfrom Hhs Htail Hne.
  set (src := concat (hunkOld <$> hs) ++ tail) in *.
  assert (split LF (removeCR (join LF src)) = src) as Hsrc.
  { apply lines_of_join; [|done]. apply Forall_app. split; [|done].
    apply oneLine_hunk_side; [apply oneLine_hunkOld | done]. }
  rewrite applyUnifiedDiff_scan, Hsrc.
  assert (scanPatch src
            (split LF (removeCR (join LF (concat (hunkLines <$> hs)))))
            applyStart
          = scanPatch src (concat (hunkLines <$> hs)) applyStart) as ->.
  { destruct (concat (hunkLines <$> hs)) as [|l ls] eqn:E; [done|].
    rewrite lines_of_join; [done | | done].
    rewrite <- E. by apply oneLine_hunkLines. }
  pose proof (scanPatch_hunks src hs [] tail [] eq_refl Hfrom) as Hscan.
  cbn [length app Nat.add] in Hscan. unfold applyStart. rewrite Hscan.
  unfold copyRest. cbn [sourceIndex outputLines].
  subst src. by rewrite drop_app_length.
Qed.

Ltac by_computation :=
  match goal with
  | |- ?P => apply (bool_decide_unpack P); vm_compute; exact I
  end.

Lemma hunks_applied_witness :
  applyUnifiedDiff
    (join LF [lit "a"; lit "b"; lit "c"; lit "d"; lit "e"; lit "f"])
    (join LF [lit "@@ -1,2 +1,2 @@"; lit " a"; lit "-b"; lit "+B";
              lit "@@ -4,2 +4,3 @@"; lit " d"; lit "+x"; lit " e"])
  = Ok (join LF [lit "a"; lit "B"; lit "c"; lit "d"; lit "x"; lit "e";
                 lit "f"]).
Proof.
  apply (hunks_applied
           [ {| hHeader := lit "@@ -1,2 +1,2 @@"; hGap := [];
                hOps := [Keep (lit "a"); Delete (lit "b"); Insert (lit "B")] |};
             {| hHeader := lit "@@ -4,2 +4,3 @@"; hGap := [lit "c"];
                hOps := [Keep (lit "d"); Insert (lit "x"); Keep (lit "e")] |} ]
           [lit "f"]).
  - simpl. split_and!; try done; try (repeat constructor).
    + exists (lit "1"). split; reflexivity.
    + exists (lit "4"). split; reflexivity.
  - repeat constructor; by_computation.
  - repeat constructor; by_computation.
  - discriminate.
Defined.

Lemma insert_script (new : list jsstring) :
  oldSide (List.map Insert new) = [] ∧ newSide (List.map Insert new) = new
  ∧ List.map renderOp (List.map Insert new) = List.map (cons 43) new.
Proof.
  induction new as [|l new (IH1 & IH2 & IH3)]; [done|].
  cbn [List.map oldSide newSide renderOp]. split_and!; congruence.
Qed.

Lemma join_lines_then_empty (lines : list jsstring) :
  join LF (lines ++ [ [] ]) = concat ((λ l, l ++ [LF]) <$> lines).
Proof.
  induction lines as [|l lines IH]; [done|].
  cbn [fmap list_fmap concat]. rewrite <- IH, <- app_assoc.
  cbn [app]. by destruct lines.
Qed.

(** Creating a file. Applied to the empty text, a hunk made of insertions
    only, whose old start is 0 or 1, gives the inserted lines, each
    followed by a line feed; with no inserted line that is the empty
    text. The header and the inserted lines hold no line feed or carriage
    return, and no inserted line starts with [++ ]. *)
Theorem insertions_into_empty_text
    (header g1 : jsstring) (new : list jsstring) :
  oneLine header → hunkHeaderPattern header = Some g1 → (parseInt g1 ≤ 1)%Z →
  Forall (λ l, oneLine l ∧ startsWith (lit "++ ") l = false) new →
  applyUnifiedDiff [] (join LF (header :: List.map (cons 43) new))
  = Ok (join LF (new ++ [ [] ]))
  ∧ applyUnifiedDiff [] (join LF (header :: List.map (cons 43) new))
    = Ok (concat ((λ l, l ++ [LF]) <$> new)).
Proof.
  intros Hheader Hhdr Hstart Hnew.
  rewrite <- join_lines_then_empty.
  enough (applyUnifiedDiff [] (join LF (header :: List.map (cons 43) new))
          = Ok (join LF (new ++ [ [] ]))) as Happly by by split.
  destruct (insert_script new) as (Hold & Hnewside & Hrender).
  rewrite Forall_forall in Hnew.
  rewrite applyUnifiedDiff_scan, lines_of_join; [| | done].
  2: { constructor; [done|]. apply Forall_forall.
       intros l (l0 & <- & Hl0)%list_elem_of_In%in_map_iff.
       apply list_elem_of_In, Hnew in Hl0 as [[? ?] _].
       split; apply not_elem_of_cons; done. }
  change (split LF (removeCR [])) with [ @nil N ].
  pose proof (scanPatch_hunks [ [] ]
    [ {| hHeader := header; hGap := []; hOps := List.map Insert new |} ]
    [] [ [] ] []) as Hscan.
  cbn [fmap list_fmap concat] in Hscan.
  unfold hunkOld, hunkNew, hunkLines in Hscan.
  cbn [hHeader hGap hOps] in Hscan.
  rewrite Hold, Hnewside, Hrender, !app_nil_r in Hscan.
  cbn [app length Nat.add] in Hscan.
  unfold applyStart. rewrite Hscan.
  - reflexivity.
  - reflexivity.
  - split_and!; [| | done].
    + exists g1. split; [done|]. simpl. lia.
    + apply Forall_forall.
      intros op (l & <- & Hl)%list_elem_of_In%in_map_iff.
      cbn [readAsBody]. by apply list_elem_of_In, Hnew in Hl as [_ ->].
Qed.

Lemma insertions_into_empty_text_witness :
  applyUnifiedDiff []
    (join LF [lit "@@ -0,0 +1,2 @@"; lit "+first"; lit "+second"])
  = Ok (join LF [lit "first"; lit "second"; []]).
Proof.
  refine (proj1 (insertions_into_empty_text (lit "@@ -0,0 +1,2 @@") (lit "0")
                   [lit "first"; lit "second"] _ _ _ _)).
  - split; by_computation.
  - reflexivity.
  - vm_compute. discriminate.
  - repeat constructor; solve [by_computation | reflexivity].
Defined.

(** ** applyUnifiedDiff: what the loops keep true *)

Section ScanInvariant.

Variable sourceLines : list jsstring.

(** A property of the state that the catch-up and every hunk line keep
    is kept by both loops. *)
Lemma scan_preserves (I : applyState → Prop) (Q : jsstring → Prop) :
  (∀ startOld st st',
     I st → catchUp sourceLines startOld st = Ok st' → I st') →
  (∀ hunkLine st st',
     Q hunkLine → I st →
     hunkLineStep sourceLines hunkLine st = Continue st' → I st') →
  ∀ patchLines st st',
    Forall Q patchLines → I st →
    (scanPatch sourceLines patchLines st = Ok st' → I st')
    ∧ (hunkBody sourceLines patchLines st = Ok st' → I st').
Proof.
  intros Hcatch Hstep patchLines.
  induction patchLines as [|line rest IH]; intros st st' Hq Hst.
  - split; intros [= <-]; done.
  - inversion Hq as [|? ? Hline Hrest]; subst.
    assert (scanPatch sourceLines (line :: rest) st = Ok st' → I st')
      as Hscan.
    { rewrite scanPatch_cons.
      destruct (isEmpty line || negb (startsWith (lit "@@ ") line)).
      - by apply IH.
      - destruct (hunkHeaderPattern line) as [g1|]; [|done].
        destruct (catchUp sourceLines (Z.max (parseInt g1 - 1) 0) st)
          as [st1|] eqn:E; [|done].
        apply IH; [done|]. by eapply Hcatch. }
    split; [done|]. rewrite hunkBody_cons.
    destruct (hunkLineStep sourceLines line st) as [st1| |] eqn:E;
      [| done | done].
    apply IH; [done|]. by eapply Hstep.
Qed.

Lemma hunkLineStep_output hunkLine st st' :
  hunkLineStep sourceLines hunkLine st = Continue st' →
  outputLines st' = outputLines st
  ∨ ∃ x, outputLines st' = outputLines st ++ [x]
         ∧ (x = actualLine sourceLines st ∨ x = drop 1 hunkLine ∨ x = []).
Proof.
  unfold hunkLineStep, slice.
  repeat (case_match; try done); intros [= <-]; cbn [outputLines]; eauto 10.
Qed.

Lemma catchUp_output startOld st st' :
  catchUp sourceLines startOld st = Ok st' →
  ∃ n, outputLines st' =
       outputLines st ++ take n (drop (sourceIndex st) sourceLines).
Proof.
  rewrite catchUp_closed. repeat case_match; intros [= <-]; try done.
  - eauto.
  - exists 0%nat. by rewrite take_0, app_nil_r.
Qed.

End ScanInvariant.

(** Whatever the base text and the diff hold, a returned text holds no
    carriage return. *)
Theorem applyUnifiedDiff_no_carriage_return
    (baseText diffText result : jsstring) :
  applyUnifiedDiff baseText diffText = Ok result → CR ∉ result.
Proof.
  rewrite applyUnifiedDiff_scan.
  set (src := split LF (removeCR baseText)).
  set (patch := split LF (removeCR diffText)).
  assert (∀ text, Forall (λ l, CR ∉ l) (split LF (removeCR text))) as Hlines.
  { intros text. apply Forall_forall. intros l Hl Hc.
    apply (removeCR_no_CR text). by eapply split_piece_elem. }
  destruct (scanPatch src patch applyStart) as [st|] eqn:E; [|done].
  intros [= <-].
  assert (Forall (λ l, CR ∉ l) (outputLines st)) as Hout.
  { refine (proj1 (scan_preserves src
      (λ st, Forall (λ l, CR ∉ l) (outputLines st)) (λ l, CR ∉ l)
      _ _ patch applyStart st (Hlines diffText) _) E).
    - intros startOld st0 st1 Hst0 [n ->]%catchUp_output.
      apply Forall_app. split; [done|].
      apply Forall_take, Forall_drop, Hlines.
    - intros h st0 st1 Hh Hst0 [->|(x & -> & Hx)]%hunkLineStep_output;
        [done|].
      apply Forall_app. split; [done|]. constructor; [|constructor].
      destruct Hx as [->|[->| ->]].
      + unfold actualLine.
        destruct (src !! sourceIndex st0) as [l|] eqn:El;
          [|apply not_elem_of_nil].
        pose proof (Hlines baseText) as Hsrc. rewrite Forall_forall in Hsrc.
        apply Hsrc. by eapply list_elem_of_lookup_2.
      + intros Hc. by apply subseteq_drop in Hc.
      + apply not_elem_of_nil.
    - constructor. }
  intros [?|(l & Hl & Hc)]%elem_of_join; [done|].
  unfold copyRest in Hl. apply elem_of_app in Hl as [Hl|Hl].
  - rewrite Forall_forall in Hout. by apply (Hout l).
  - apply subseteq_drop in Hl.
    pose proof (Hlines baseText) as Hsrc. rewrite Forall_forall in Hsrc.
    by apply (Hsrc l).
Qed.

Lemma applyUnifiedDiff_no_carriage_return_witness :
  CR ∉ join LF [lit "one"; lit "deux"].
Proof.
  apply (applyUnifiedDiff_no_carriage_return
           (lit "one" ++ [CR; LF] ++ lit "two" ++ [CR])
           (join LF [lit "@@ -1,2 +1,2 @@" ++ [CR]; lit " one" ++ [CR];
                     lit "-two" ++ [CR]; lit "+deux" ++ [CR]])).
  reflexivity.
Defined.

(** ** The check and the split together *)

Lemma lastHeaderPath_Some prefix (lines : list jsstring) (c : jsstring) :
  lastHeaderPath prefix lines = Some c →
  ∃ line, line ∈ lines ∧ startsWith prefix line = true
          ∧ headerPath line = Some c.
Proof.
  unfold lastHeaderPath.
  destruct (last (List.filter (startsWith prefix) lines)) as [line|] eqn:E;
    [|done].
  intros Hc. exists line.
  apply last_Some_elem_of, list_elem_of_In, filter_In in E as [Hin Hstart].
  split_and!; [by apply list_elem_of_In | done | done].
Qed.

Lemma segment_line_of_patch (patchText : jsstring) (p : ParsedFilePatch)
    (line : jsstring) :
  p ∈ splitUnifiedDiffByFile patchText → line ∈ segmentLines p →
  line ∈ split LF (removeCR patchText).
Proof.
  intros Hp Hline.
  apply list_elem_of_In, filter_In in Hp as [Hp%list_elem_of_In _].
  apply fromFirstHeader_elem.
  rewrite <- (proj2 (collectedPatches_inv patchText)).
  by eapply elem_of_concat_fmap.
Qed.

Lemma checked_path_authorized accepted (line c : jsstring) raw :
  isPathHeader line = true → checkLine accepted line = None →
  headerPath line = Some c → raw = Some c →
  authorizedPath accepted raw (normalizePatchPath raw).
Proof.
  intros Hhdr Hcheck Hpath -> n Hn.
  rewrite headerPath_pathPortion in Hpath. injection Hpath as <-.
  apply checkLine_passes in Hcheck.
  assert (¬ unexpectedPath accepted (pathPortion line)) as Hok.
  { intros Hbad. apply Hcheck. split; [|done].
    by apply orb_true_iff in Hhdr. }
  unfold unexpectedPath in Hok. rewrite Hn in Hok.
  assert (pathPortion line ≠ []) as Hne
    by (intros E; by rewrite E in Hn).
  assert (pathPortion line ≠ devNull) as Hdev
    by (intros E; by rewrite E in Hn).
  destruct (decide (n = [])) as [->|Hn0]; [exfalso; apply Hok; auto|].
  split; [done|].
  destruct (decide (n ∈ accepted)) as [|Hn1]; [by left|].
  destruct (decide (pathPortion line ∈ accepted)) as [|Hn2]; [by eauto|].
  exfalso. apply Hok. split_and!; [done | done |]. right. eauto.
Qed.

(** When the check passes a patch without carriage returns, every path
    of every segment the split returns is authorized: a path that is not
    null is not empty, and it or the raw header path it came from is in
    the accepted set of the targets. *)
Theorem sanitized_segments_authorized
    (patchText : jsstring) (targets : targetPaths) :
  CR ∉ patchText →
  sanitizePatchTargets patchText targets = Ok tt →
  Forall (λ p, authorizedPath (acceptedSet targets) (rawOldPath p) (oldPath p)
               ∧ authorizedPath (acceptedSet targets)
                   (rawNewPath p) (newPath p))
         (splitUnifiedDiffByFile patchText).
Proof.
  intros Hcr Hok. unfold sanitizePatchTargets in Hok.
  rewrite checkLines_ok in Hok.
  pose proof (splitUnifiedDiffByFile_raw_lines patchText) as Hsegs.
  apply Forall_forall. intros p Hp.
  destruct (Hsegs p Hp) as (Hold & Hnew & -> & ->).
  assert (∀ line, line ∈ segmentLines p →
            checkLine (acceptedSet targets) line = None) as Hchecked.
  { intros line Hline. apply Hok.
    rewrite <- (removeCR_id patchText) by done.
    by eapply segment_line_of_patch. }
  split.
  - destruct (rawOldPath p) as [c|] eqn:Ec; [|by intros n].
    symmetry in Hold.
    apply lastHeaderPath_Some in Hold as (line & Hline & Hstart & Hpath).
    eapply checked_path_authorized; eauto.
    unfold isPathHeader. by rewrite Hstart.
  - destruct (rawNewPath p) as [c|] eqn:Ec; [|by intros n].
    symmetry in Hnew.
    apply lastHeaderPath_Some in Hnew as (line & Hline & Hstart & Hpath).
    eapply checked_path_authorized; eauto.
    unfold isPathHeader. rewrite Hstart. apply orb_true_r.
Qed.

Lemma sanitized_segments_authorized_witness :
  Forall (λ p, authorizedPath (acceptedSet (OnePath (lit "x.txt")))
                 (rawOldPath p) (oldPath p)
               ∧ authorizedPath (acceptedSet (OnePath (lit "x.txt")))
                   (rawNewPath p) (newPath p))
         (splitUnifiedDiffByFile
            (join LF [lit "--- a/x.txt"; lit "+++ b/x.txt";
                      lit "@@ -1 +1 @@"; lit "-old"; lit "+new"])).
Proof.
  apply sanitized_segments_authorized.
  - by_computation.
  - reflexivity.
Defined.

(** The check reads the lines of the raw text, the split reads them after
    the carriage returns are removed. So a path header behind a carriage
    return at the start of the patch is not checked, whatever the targets
    are, and the split still reads its path. *)
Theorem carriage_return_hides_header (x : jsstring) (targets : targetPaths) :
  LF ∉ x → CR ∉ x →
  sanitizePatchTargets (CR :: lit "--- " ++ x) targets = Ok tt
  ∧ List.map (λ p, (rawOldPath p, oldPath p))
      (splitUnifiedDiffByFile (CR :: lit "--- " ++ x))
    = [ (Some (pathPortion (lit "--- " ++ x)),
         normalizePatchPath (Some (pathPortion (lit "--- " ++ x)))) ].
Proof.
  intros Hlf Hcr. split.
  - unfold sanitizePatchTargets.
    rewrite split_no_sep
      by (apply not_elem_of_cons; split; [done|]; set_solver).
    reflexivity.
  - unfold splitUnifiedDiffByFile, collectedPatches.
    assert (removeCR (CR :: lit "--- " ++ x) = lit "--- " ++ x) as ->.
    { unfold removeCR. rewrite filter_cons_False by (intros H; by apply H).
      apply removeCR_id. set_solver. }
    rewrite split_no_sep by set_solver.
    assert (startsWith (lit "--- ") (lit "--- " ++ x) = true) as Hold
      by (apply startsWith_split; eauto).
    assert (startsWith (lit "diff --git ") (lit "--- " ++ x) = false) as Hgit
      by by apply (startsWith_other_head _ _ _ 45 100 Hold).
    remember (lit "--- " ++ x) as line eqn:Eline.
    cbn [fold_left]. unfold splitLine. rewrite Hgit, Hold.
    cbn [recording splitStart negb orb]. unfold recordPaths. rewrite Hold.
    unfold pushPatch.
    cbn [recording negb patches buffer rawOld rawNew app List.filter].
    unfold hasRawPath. cbn [rawOldPath rawNewPath].
    rewrite headerPath_pathPortion. reflexivity.
Qed.

Lemma carriage_return_hides_header_witness :
  sanitizePatchTargets (CR :: lit "--- " ++ lit "a/secret.txt")
    (OnePath (lit "allowed.txt")) = Ok tt
  ∧ List.map (λ p, (rawOldPath p, oldPath p))
      (splitUnifiedDiffByFile (CR :: lit "--- " ++ lit "a/secret.txt"))
    = [ (Some (lit "a/secret.txt"), Some (lit "secret.txt")) ].
Proof.
  apply (carriage_return_hides_header (lit "a/secret.txt")
           (OnePath (lit "allowed.txt"))); by_computation.
Defined.
